(** * esportsranker desktop shell: session store, tournament loader, routes

    A shallow embedding of
      - [src/desktop/src/lib/storage.ts] ([loadTournamentNames]),
      - the session store ([useSessionStore], created with zustand),
      - the two route tables ([App]),
      - the Tournaments, Login and Dashboard screens and the navigation
        bar, as far as their state, their handlers and what they choose
        to show go,
    and the properties the specification states about them, followed by
    further properties read off the code.

    TypeScript strings are sequences of UTF-16 code units; functions with
    effects (the store, the console, exceptions, promises) live in a small
    monad [JS] over an explicit [World]. *)

From Stdlib Require Import List NArith ZArith Arith Bool String Ascii Lia.
Import ListNotations.

(* ===================================================================== *)
(** ** JavaScript strings *)
(* ===================================================================== *)

Module JsString.

(** A string value: its UTF-16 code units, in order. *)
Definition t := list N.

(** The string written by an ASCII literal of the source. *)
Definition lit (s : string) : t := map N_of_ascii (list_ascii_of_string s).

(** [s.length] *)
Definition length (s : t) : nat := List.length s.

(** [a + b] on strings. *)
Definition concat (a b : t) : t := a ++ b.

(** ECMAScript [WhiteSpace]: TAB, VT, FF, ZWNBSP and the code points of
    general category Zs. *)
Definition is_white_space (c : N) : bool :=
  (   (c =? 0x0009) || (c =? 0x000B) || (c =? 0x000C) || (c =? 0xFEFF)
   || (c =? 0x0020) || (c =? 0x00A0) || (c =? 0x1680)
   || ((0x2000 <=? c) && (c <=? 0x200A))
   || (c =? 0x202F) || (c =? 0x205F) || (c =? 0x3000))%N.

(** ECMAScript [LineTerminator]: LF, CR, LS, PS. *)
Definition is_line_terminator (c : N) : bool :=
  ((c =? 0x000A) || (c =? 0x000D) || (c =? 0x2028) || (c =? 0x2029))%N.

(** The code units [String.prototype.trim] strips. *)
Definition is_trimmable (c : N) : bool :=
  is_white_space c || is_line_terminator c.

Fixpoint drop_while (p : N -> bool) (s : t) : t :=
  match s with
  | [] => []
  | c :: s' => if p c then drop_while p s' else s
  end.

(** [s.trimStart()], [s.trimEnd()], [s.trim()] *)
Definition trimStart (s : t) : t := drop_while is_trimmable s.
Definition trimEnd (s : t) : t := rev (drop_while is_trimmable (rev s)).
Definition trim (s : t) : t := trimEnd (trimStart s).

(** A string is truthy exactly when it is not empty. *)
Definition truthy (s : t) : bool :=
  match s with [] => false | _ :: _ => true end.

(** Every code unit is one that [trim] strips; the empty string
    qualifies. *)
Definition whitespace_only (s : t) : bool := forallb is_trimmable s.

Definition eqb (a b : t) : bool :=
  if list_eq_dec N.eq_dec a b then true else false.

End JsString.

Abbreviation jsstring := JsString.t.
Abbreviation js := JsString.lit.

(* ===================================================================== *)
(** ** Values, console, completions, promises *)
(* ===================================================================== *)

(** The values that reach the console or are thrown. *)
Inductive JsValue : Type :=
| VString (s : jsstring)
| VError (message : jsstring)
| VOther (tag : N).

Inductive Level : Type := LWarn | LError.

(** One call of [console.warn] or [console.error] with its arguments. *)
Record ConsoleEntry : Type := { level : Level; args : list JsValue }.

(** How the evaluation of a piece of code ends: it returns, it throws, or
    it is parked at an [await] on a promise that never settles. *)
Inductive Completion (A : Type) : Type :=
| Normal (a : A)
| Throw (e : JsValue)
| Suspended.
Arguments Normal {A} a.
Arguments Throw {A} e.
Arguments Suspended {A}.

(** The eventual state of a promise. *)
Inductive Promise (A : Type) : Type :=
| Fulfilled (a : A)
| Rejected (reason : JsValue)
| Pending.
Arguments Fulfilled {A} a.
Arguments Rejected {A} reason.
Arguments Pending {A}.

(* ===================================================================== *)
(** ** The session state object *)
(* ===================================================================== *)

(** [type SessionState]. The object also carries the two operations
    [loginWithDeviceCode] and [logout]; they are closures made once by
    [create] and no [set] call names them, so the record keeps the data
    members only. *)
Record SessionState : Type := {
  storeId : jsstring;
  accessToken : option jsstring;   (* string | null *)
  isLoggedIn : bool
}.

(** An object literal handed to [set]: each member is present or absent. *)
Record Partial : Type := {
  p_storeId : option jsstring;
  p_accessToken : option (option jsstring);
  p_isLoggedIn : option bool
}.

(** [Object.assign({}, state, partial)]: present members overwrite. *)
Definition assign (state : SessionState) (partial : Partial) : SessionState :=
  {| storeId := match p_storeId partial with Some v => v | None => storeId state end;
     accessToken := match p_accessToken partial with Some v => v | None => accessToken state end;
     isLoggedIn := match p_isLoggedIn partial with Some v => v | None => isLoggedIn state end |}.

(* ===================================================================== *)
(** ** The monad of effects *)
(* ===================================================================== *)

Record World : Type := {
  store : SessionState;            (* the zustand store's current state *)
  console : list ConsoleEntry      (* what was logged, oldest first *)
}.

Definition JS (A : Type) : Type := World -> Completion A * World.

Definition ret {A} (a : A) : JS A := fun w => (Normal a, w).

Definition bind {A B} (m : JS A) (k : A -> JS B) : JS B :=
  fun w =>
    match m w with
    | (Normal a, w') => k a w'
    | (Throw e, w') => (Throw e, w')
    | (Suspended, w') => (Suspended, w')
    end.

Declare Scope js_scope.
Delimit Scope js_scope with js.
Notation "x <- m ;; k" := (bind m (fun x => k))
  (at level 61, m at next level, right associativity) : js_scope.
Notation "m ;; k" := (bind m (fun _ => k))
  (at level 61, right associativity) : js_scope.
Local Open Scope js_scope.

(** [throw e] *)
Definition throw {A} (e : JsValue) : JS A := fun w => (Throw e, w).

(** [try { body } catch (err) { handler }] *)
Definition try_catch {A} (body : JS A) (handler : JsValue -> JS A) : JS A :=
  fun w =>
    match body w with
    | (Normal a, w') => (Normal a, w')
    | (Throw e, w') => handler e w'
    | (Suspended, w') => (Suspended, w')
    end.

(** [await p] *)
Definition await {A} (p : Promise A) : JS A :=
  match p with
  | Fulfilled a => ret a
  | Rejected e => throw e
  | Pending => fun w => (Suspended, w)
  end.

(** Calling an [async function]: the call itself returns a promise, which
    is fulfilled by the body's [return], rejected by what the body throws,
    and stays pending when the body never gets past an [await]. *)
Definition async {A} (body : JS A) : JS (Promise A) :=
  fun w =>
    match body w with
    | (Normal a, w') => (Normal (Fulfilled a), w')
    | (Throw e, w') => (Normal (Rejected e), w')
    | (Suspended, w') => (Normal Pending, w')
    end.

Definition log (l : Level) (xs : list JsValue) : JS unit :=
  fun w => (Normal tt,
            {| store := store w;
               console := console w ++ [{| level := l; args := xs |}] |}).

Definition console_warn := log LWarn.
Definition console_error := log LError.

(** The store's [set(partial)]. *)
Definition set (partial : Partial) : JS unit :=
  fun w => (Normal tt,
            {| store := assign (store w) partial; console := console w |}).

(** The world a computation leaves behind, and how it completed. *)
Definition exec {A} (m : JS A) (w : World) : World := snd (m w).
Definition completion {A} (m : JS A) (w : World) : Completion A := fst (m w).

(* ===================================================================== *)
(** ** useSessionStore *)
(* ===================================================================== *)

Definition token_prefix : jsstring := js "mock_access_token_".

(** The state [create] builds. *)
Definition initial_state : SessionState :=
  {| storeId := js "SESSION_STORE_SINGLETON";
     accessToken := None;
     isLoggedIn := false |}.

Definition initial_world : World :=
  {| store := initial_state; console := [] |}.

Definition loginWithDeviceCode (code : jsstring) : JS unit :=
  if JsString.truthy code && (0 <? JsString.length (JsString.trim code))
  then
    let fakeToken := JsString.concat token_prefix (JsString.trim code) in
    set {| p_storeId := None;
           p_accessToken := Some (Some fakeToken);
           p_isLoggedIn := Some true |}
  else
    console_warn [VString (js "No device code entered")].

(** What the console holds after the [else] branch ran once more. *)
Definition warning_entry : ConsoleEntry :=
  {| level := LWarn; args := [VString (js "No device code entered")] |}.

Definition logout : JS unit :=
  set {| p_storeId := None;
         p_accessToken := Some None;
         p_isLoggedIn := Some false |}.

(** What the application does to the store. *)
Inductive Action : Type :=
| LoginWithDeviceCode (code : jsstring)
| Logout.

Definition perform (a : Action) : JS unit :=
  match a with
  | LoginWithDeviceCode code => loginWithDeviceCode code
  | Logout => logout
  end.

(** The worlds the application can be in: the one [create] leaves, and
    any world one more store operation away from a reachable one. *)
Inductive reachable : World -> Prop :=
| reachable_initial : reachable initial_world
| reachable_step (a : Action) (w : World) :
    reachable w -> reachable (exec (perform a) w).

(** [isLoggedIn] is true exactly when [accessToken] is not null. *)
Definition session_invariant (s : SessionState) : Prop :=
  isLoggedIn s = true <-> accessToken s <> None.

(* ===================================================================== *)
(** ** loadTournamentNames *)
(* ===================================================================== *)

Section TournamentLoader.

(** Tauri's [invoke]: the call into the backend. What it does is not
    this program's to decide: it may throw, or return a promise that is
    fulfilled with the names, rejected, or never settled. *)
Variable invoke : jsstring -> JS (Promise (list jsstring)).

Definition loadTournamentNames : JS (Promise (list jsstring)) :=
  async
    (try_catch
       (names <- (p <- invoke (js "get_tournaments") ;; await p) ;;
        ret names)
       (fun err =>
          console_error [VString (js "Failed to load tournaments:"); err] ;;
          ret [])).

End TournamentLoader.

(** The console entry the [catch] block writes for the caught value. *)
Definition failure_entry (err : JsValue) : ConsoleEntry :=
  {| level := LError;
     args := [VString (js "Failed to load tournaments:"); err] |}.

(** Two backends to run the loader against: one whose promise is
    rejected, one that answers with the given names. *)
Definition invoke_rejecting (reason : JsValue)
  : jsstring -> JS (Promise (list jsstring)) :=
  fun _ => ret (Rejected reason).

Definition invoke_answering (names : list jsstring)
  : jsstring -> JS (Promise (list jsstring)) :=
  fun cmd =>
    if JsString.eqb cmd (js "get_tournaments") then ret (Fulfilled names)
    else ret (Rejected (VError (js "unknown command"))).

(* ===================================================================== *)
(** ** Route tables *)
(* ===================================================================== *)

(** What a route renders. *)
Inductive Element : Type :=
| Navigate (to : jsstring) (replace : bool)
| DashboardScreen
| TournamentsScreen
| LoginScreen.

(** [<Route path=... element=... />] *)
Record Route : Type := { path : jsstring; element : Element }.

(** [App] of [src/desktop/src/App.tsx]: the routes inside [HashRouter]. *)
Module AppHashRouter.
Definition routes : list Route :=
  [ {| path := js "/";            element := Navigate (js "/dashboard") true |};
    {| path := js "/dashboard";   element := DashboardScreen |};
    {| path := js "/tournaments"; element := TournamentsScreen |};
    {| path := js "/login";       element := LoginScreen |};
    {| path := js "*";            element := Navigate (js "/dashboard") true |} ].
End AppHashRouter.

(** The other [App] of the repository: the routes inside [BrowserRouter]. *)
Module AppBrowserRouter.
Definition routes : list Route :=
  [ {| path := js "/";            element := Navigate (js "/dashboard") true |};
    {| path := js "/login";       element := LoginScreen |};
    {| path := js "/dashboard";   element := DashboardScreen |};
    {| path := js "/tournaments"; element := TournamentsScreen |} ].
End AppBrowserRouter.


(** [decodeURIComponent], as ECMAScript defines it: every escape "%XX"
    is replaced by the character its octet stands for, or, for an octet
    with the high bit set, the escapes of one UTF-8 sequence are replaced
    by the UTF-16 encoding of its code point. [None] stands for the
    [URIError] the function throws: an escape cut short or with a digit
    that is not hexadecimal, or octets that are not well-formed UTF-8. *)
Module Uri.

Definition percent : N := 37.

Definition hex_digit (c : N) : option N :=
  if ((48 <=? c) && (c <=? 57))%N then Some (c - 48)%N
  else if ((65 <=? c) && (c <=? 70))%N then Some (c - 55)%N
  else if ((97 <=? c) && (c <=? 102))%N then Some (c - 87)%N
  else None.

(** One escape at the head of the string: its octet, and what follows. *)
Definition take_octet (s : jsstring) : option (N * jsstring) :=
  match s with
  | p :: h1 :: h2 :: rest =>
      if (p =? percent)%N then
        match hex_digit h1, hex_digit h2 with
        | Some a, Some b => Some ((16 * a + b)%N, rest)
        | _, _ => None
        end
      else None
  | _ => None
  end.

Definition is_continuation (b : N) : bool :=
  ((0x80 <=? b) && (b <=? 0xBF))%N.

(** [n] continuation octets, their six payload bits each shifted into
    [acc]. *)
Fixpoint take_continuations (n : nat) (acc : N) (s : jsstring)
  : option (N * jsstring) :=
  match n with
  | O => Some (acc, s)
  | S n' =>
      match take_octet s with
      | Some (b, rest) =>
          if is_continuation b
          then take_continuations n' (acc * 64 + (b - 0x80))%N rest
          else None
      | None => None
      end
  end.

(** The code points a well-formed sequence of [len] octets encodes: no
    overlong form, no surrogate, nothing above U+10FFFF. *)
Definition well_formed (len : nat) (cp : N) : bool :=
  match len with
  | 2%nat => (0x80 <=? cp)%N
  | 3%nat => ((0x800 <=? cp) && negb ((0xD800 <=? cp) && (cp <=? 0xDFFF)))%N
  | 4%nat => ((0x10000 <=? cp) && (cp <=? 0x10FFFF))%N
  | _ => false
  end.

(** [UTF16EncodeCodePoint] *)
Definition utf16_encode (cp : N) : jsstring :=
  if (cp <? 0x10000)%N then [cp]
  else [ (0xD800 + (cp - 0x10000) / 0x400)%N;
         (0xDC00 + (cp - 0x10000) mod 0x400)%N ].

(** The length of the sequence a leading octet announces, and the
    payload bits of that octet; length 0 for an octet that cannot lead. *)
Definition leading (b : N) : nat * N :=
  if (b <? 0xC0)%N then (0%nat, 0%N)
  else if (b <? 0xE0)%N then (2%nat, (b - 0xC0)%N)
  else if (b <? 0xF0)%N then (3%nat, (b - 0xE0)%N)
  else if (b <? 0xF8)%N then (4%nat, (b - 0xF0)%N)
  else (0%nat, 0%N).

(** The decoding loop; every round consumes at least one code unit, so
    [fuel] equal to the length of the string is never used up. *)
Fixpoint decode (fuel : nat) (s : jsstring) : option jsstring :=
  match s with
  | [] => Some []
  | c :: s' =>
      match fuel with
      | O => None
      | S fuel' =>
          if (c =? percent)%N then
            match take_octet s with
            | None => None
            | Some (b, rest) =>
                if (b <? 0x80)%N then option_map (cons b) (decode fuel' rest)
                else
                  match leading b with
                  | (O, _) => None
                  | (S more, bits) =>
                      match take_continuations more bits rest with
                      | Some (cp, rest') =>
                          if well_formed (S more) cp
                          then option_map (app (utf16_encode cp)) (decode fuel' rest')
                          else None
                      | None => None
                      end
                  end
            end
          else option_map (cons c) (decode fuel' s')
      end
  end.

Definition decodeURIComponent (s : jsstring) : option jsstring :=
  decode (List.length s) s.

(** A code unit that starts no escape. *)
Definition plain (c : N) : bool := negb (c =? percent)%N.

End Uri.

(** How [<Routes>] of react-router (version 6) picks the route for a
    location: the location's pathname, or "/" when that is empty, is
    percent-decoded segment by segment; the routes are ranked by score,
    and the first one in rank order whose pattern matches the decoded
    pathname wins. The basename is "/". Patterns are flat (no nested
    routes, no index routes) and have no dynamic [:param] segment to
    capture, as in both tables above; letter case is folded for the ASCII
    letters, which is exact for ASCII patterns. *)
Module Router.

Definition slash : N := 47.
Definition star : N := 42.
Definition colon : N := 58.

Definition is_slash (c : N) : bool := (c =? slash)%N.

(** [s.split("/")] *)
Fixpoint split_slash (s cur : jsstring) : list jsstring :=
  match s with
  | [] => [rev cur]
  | c :: s' =>
      if is_slash c then rev cur :: split_slash s' []
      else split_slash s' (c :: cur)
  end.

(** [joinPaths] replaces every run of slashes by one slash. *)
Fixpoint collapse_slashes (s : jsstring) : jsstring :=
  match s with
  | c1 :: ((c2 :: _) as tl) =>
      if is_slash c1 && is_slash c2 then collapse_slashes tl
      else c1 :: collapse_slashes tl
  | _ => s
  end.

(** [joinPaths(["", relativePath])]: the full path of a top-level route. *)
Definition joinPaths_root (relativePath : jsstring) : jsstring :=
  collapse_slashes (slash :: relativePath).

(** A letter, a digit, an underscore or a dash. *)
Definition is_word_or_dash (c : N) : bool :=
  (   ((48 <=? c) && (c <=? 57)) || ((65 <=? c) && (c <=? 90))
   || ((97 <=? c) && (c <=? 122)) || (c =? 95) || (c =? 45))%N.

(** [paramRe.test(segment)]: a colon, then one or more of letters,
    digits, underscore and dash. *)
Definition is_param (segment : jsstring) : bool :=
  match segment with
  | c :: ((_ :: _) as name) => (c =? colon)%N && forallb is_word_or_dash name
  | _ => false
  end.

Definition isSplat (segment : jsstring) : bool := JsString.eqb segment [star].

Definition dynamicSegmentValue : Z := 3.
Definition emptySegmentValue : Z := 1.
Definition staticSegmentValue : Z := 10.
Definition splatPenalty : Z := (-2).

(** [computeScore(path, false)] *)
Definition computeScore (path : jsstring) : Z :=
  let segments := split_slash path [] in
  let initialScore := Z.of_nat (List.length segments) in
  let initialScore :=
    if existsb isSplat segments then (initialScore + splatPenalty)%Z
    else initialScore in
  fold_left
    (fun score segment =>
       (score + (if is_param segment then dynamicSegmentValue
                 else if JsString.eqb segment [] then emptySegmentValue
                 else staticSegmentValue))%Z)
    (filter (fun s => negb (isSplat s)) segments)
    initialScore.

Definition score (r : Route) : Z := computeScore (joinPaths_root (path r)).

(** [rankRouteBranches]: higher score first, siblings of equal score in
    source order. *)
Fixpoint insert_ranked (r : Route) (ranked : list Route) : list Route :=
  match ranked with
  | [] => [r]
  | r' :: rest =>
      if (score r <? score r')%Z then r' :: insert_ranked r rest
      else r :: ranked
  end.

Definition rankRouteBranches (routes : list Route) : list Route :=
  fold_right insert_ranked [] routes.

(** The case folding of a regular expression with the [i] flag, on the
    ASCII letters. *)
Definition canonicalize (c : N) : N :=
  if ((97 <=? c) && (c <=? 122))%N then (c - 32)%N else c.

(** Match the literal part of a pattern at the start of the pathname,
    ignoring case; what is left of the pathname comes back. *)
Fixpoint strip_literal (literal s : jsstring) : option jsstring :=
  match literal with
  | [] => Some s
  | l :: literal' =>
      match s with
      | [] => None
      | c :: s' =>
          if (canonicalize l =? canonicalize c)%N then strip_literal literal' s'
          else None
      end
  end.

(** The literal part of the pattern, as [compilePath] prepares it: a
    final star and the slashes before it are dropped, and the leading
    slashes are replaced by a single slash. *)
Definition literal_part (pattern : jsstring) : jsstring :=
  let r := rev pattern in
  let r := match r with c :: r' => if (c =? star)%N then r' else r | [] => r end in
  let stem := rev (JsString.drop_while is_slash r) in
  slash :: JsString.drop_while is_slash stem.

Definition endsWith_star (pattern : jsstring) : bool :=
  match rev pattern with c :: _ => (c =? star)%N | [] => false end.

(** [.] of a regular expression: any code unit but a line terminator. *)
Definition dot_star (s : jsstring) : bool :=
  forallb (fun c => negb (JsString.is_line_terminator c)) s.

(** [matchPath({ path: pattern, caseSensitive: false, end: true },
    pathname) != null]: the pathname matches the regular expression
    [compilePath] builds, anchored at both ends. It is the literal part
    followed by
      - any run of dots, for the patterns ["*"] and ["/*"];
      - either a slash and one or more dots, or any run of slashes, for
        another pattern that ends in a star;
      - any run of slashes otherwise (trailing slashes are ignored). *)
Definition matchPath (pattern pathname : jsstring) : bool :=
  match strip_literal (literal_part pattern) pathname with
  | None => false
  | Some rest =>
      if endsWith_star pattern then
        if JsString.eqb pattern [star] || JsString.eqb pattern [slash; star]
        then dot_star rest
        else
          match rest with
          | c :: ((_ :: _) as tail) =>
              (is_slash c && dot_star tail) || forallb is_slash rest
          | _ => forallb is_slash rest
          end
      else forallb is_slash rest
  end.

(** [decoded.replace(/\//g, "%2F")]: a slash that came out of an escape
    is put back as an escape. *)
Definition escape_slashes (s : jsstring) : jsstring :=
  flat_map (fun c => if is_slash c then js "%2F" else [c]) s.

(** [segments.join("/")] *)
Fixpoint join_slash (segments : list jsstring) : jsstring :=
  match segments with
  | [] => []
  | [segment] => segment
  | segment :: rest => segment ++ slash :: join_slash rest
  end.

(** A segment with no escape in it (and, as a segment, no slash). *)
Definition plain_segment (s : jsstring) : Prop :=
  forallb Uri.plain s = true /\ forallb (fun c => negb (is_slash c)) s = true.

(** The segments decoded one by one; [None] when one of them throws. *)
Fixpoint decode_segments (segments : list jsstring) : option (list jsstring) :=
  match segments with
  | [] => Some []
  | segment :: rest =>
      match Uri.decodeURIComponent segment, decode_segments rest with
      | Some decoded, Some rest' => Some (escape_slashes decoded :: rest')
      | _, _ => None
      end
  end.

(** [decodePath(value)]: the pathname with every segment decoded, or the
    pathname as it is when a segment cannot be decoded. *)
Definition decodePath (value : jsstring) : jsstring :=
  match decode_segments (split_slash value []) with
  | Some segments => join_slash segments
  | None => value
  end.

(** The string the patterns are matched against:
    [decodePath(location.pathname || "/")]. *)
Definition matched_pathname (pathname : jsstring) : jsstring :=
  decodePath (match pathname with [] => [slash] | _ :: _ => pathname end).

(** [matchRoutes(routes, { pathname })], and the element [<Routes>]
    renders for it; [None] when no route matches. *)
Definition matchRoutes (routes : list Route) (pathname : jsstring)
  : option Element :=
  option_map element
    (find (fun r => matchPath (path r) (matched_pathname pathname))
          (rankRouteBranches routes)).

(** Rendering [<Navigate to=... />] moves the location to [to], and the
    routes are matched again; [settle] follows at most [fuel] such
    moves. *)
Fixpoint settle (fuel : nat) (routes : list Route) (pathname : jsstring)
  : option Element :=
  match matchRoutes routes pathname with
  | Some (Navigate to rep) =>
      match fuel with
      | O => Some (Navigate to rep)
      | S fuel' => settle fuel' routes to
      end
  | other => other
  end.

(** A slash, then anything on one line: the strings the wildcard route
    matches. *)
Definition is_pathname (p : jsstring) : bool :=
  match p with
  | c :: rest => is_slash c && dot_star rest
  | [] => false
  end.

End Router.

(* ===================================================================== *)
(** ** Sequences of store operations *)
(* ===================================================================== *)

(** The operations of a list, one after the other. *)
Definition run_actions (actions : list Action) (w : World) : World :=
  fold_left (fun w a => exec (perform a) w) actions w.

(** A login whose code [loginWithDeviceCode] declines. *)
Definition is_blank_login (a : Action) : bool :=
  match a with
  | LoginWithDeviceCode code => JsString.whitespace_only code
  | Logout => false
  end.

(** The state object after a login with [code] went through. *)
Definition logged_in_state (code : jsstring) : SessionState :=
  {| storeId := js "SESSION_STORE_SINGLETON";
     accessToken := Some (JsString.concat token_prefix (JsString.trim code));
     isLoggedIn := true |}.

(** A backend whose promise never settles. *)
Definition invoke_pending : jsstring -> JS (Promise (list jsstring)) :=
  fun _ => ret Pending.

(* ===================================================================== *)
(** ** Components *)
(* ===================================================================== *)

(** A mounted component: its [useState] cells, and the world around it. *)
Record Mounted (S : Type) : Type := { local : S; app : World }.
Arguments Build_Mounted {S} local app.
Arguments local {S} m.
Arguments app {S} m.

(** Code of a component: [JS] code that can also set the component's
    state. *)
Definition UI (S A : Type) : Type := Mounted S -> Completion A * Mounted S.

Definition ui_ret {S A} (a : A) : UI S A := fun m => (Normal a, m).

Definition ui_bind {S A B} (c : UI S A) (k : A -> UI S B) : UI S B :=
  fun m =>
    match c m with
    | (Normal a, m') => k a m'
    | (Throw e, m') => (Throw e, m')
    | (Suspended, m') => (Suspended, m')
    end.

Declare Scope ui_scope.
Delimit Scope ui_scope with ui.
Notation "x <- c ;; k" := (ui_bind c (fun x => k))
  (at level 61, c at next level, right associativity) : ui_scope.
Notation "c ;; k" := (ui_bind c (fun _ => k))
  (at level 61, right associativity) : ui_scope.

(** Code that does not touch the component's state. *)
Definition lift {S A} (c : JS A) : UI S A :=
  fun m =>
    match c (app m) with
    | (r, w') => (r, {| local := local m; app := w' |})
    end.

(** A [useState] setter, given what it does to the state. *)
Definition setState {S} (f : S -> S) : UI S unit :=
  fun m => (Normal tt, {| local := f (local m); app := app m |}).

(** [await p] and the call of an [async function], in a component. *)
Definition ui_await {S A} (p : Promise A) : UI S A :=
  match p with
  | Fulfilled a => ui_ret a
  | Rejected e => fun m => (Throw e, m)
  | Pending => fun m => (Suspended, m)
  end.

Definition ui_async {S A} (body : UI S A) : UI S (Promise A) :=
  fun m =>
    match body m with
    | (Normal a, m') => (Normal (Fulfilled a), m')
    | (Throw e, m') => (Normal (Rejected e), m')
    | (Suspended, m') => (Normal Pending, m')
    end.

(** [array.map((x, idx) => f(x, idx))], counting from [idx]. *)
Fixpoint map_indexed {A B} (f : A -> nat -> B) (l : list A) (idx : nat) : list B :=
  match l with
  | [] => []
  | x :: l' => f x idx :: map_indexed f l' (S idx)
  end.

(** *** The Tournaments screen *)

Module Tournaments.

(** [names] and [loading], the two [useState] cells. *)
Record State : Type := { names : list jsstring; loading : bool }.

Definition initial : State := {| names := []; loading := true |}.

Definition setNames (data : list jsstring) : UI State unit :=
  setState (fun st => {| names := data; loading := loading st |}).

Definition setLoading (b : bool) : UI State unit :=
  setState (fun st => {| names := names st; loading := b |}).

Section Effect.

Variable invoke : jsstring -> JS (Promise (list jsstring)).

(** [async function run()] *)
Definition run : UI State (Promise unit) :=
  ui_async
    (data <- (p <- lift (loadTournamentNames invoke) ;; ui_await p) ;;
     setNames data ;;
     setLoading false)%ui.

(** The effect of [useEffect(..., [])]: it calls [run()] once, after the
    first render, and lets go of the promise. *)
Definition effect : UI State unit := (_ <- run ;; ui_ret tt)%ui.

End Effect.

(** What the component shows under its heading: the "Loading" line, the
    "No tournaments found." line, or one list item per name, keyed by its
    index. *)
Inductive View : Type :=
| Loading
| NoneFound
| NameList (items : list (nat * jsstring)).

Definition render (st : State) : View :=
  if loading st then Loading
  else if Nat.eqb (List.length (names st)) 0 then NoneFound
  else NameList (map_indexed (fun n idx => (idx, n)) (names st) 0).

(** The component right after its first render, in world [w]. *)
Definition mounted (w : World) : Mounted State :=
  {| local := initial; app := w |}.

End Tournaments.

(** *** The Login screen *)

Module Login.

(** [deviceCode], the one [useState] cell. *)
Record State : Type := { deviceCode : jsstring }.

Definition initial : State := {| deviceCode := [] |}.

Definition setDeviceCode (value : jsstring) : UI State unit :=
  setState (fun _ => {| deviceCode := value |}).

(** What the handler uses of a form event. *)
Record FormEvent : Type := { defaultPrevented : bool }.

Definition preventDefault (e : FormEvent) : FormEvent :=
  {| defaultPrevented := true |}.

(** [handleSubmit(e)]; the event comes back as the handler leaves it. *)
Definition handleSubmit (e : FormEvent) : UI State FormEvent :=
  fun m =>
    let e := preventDefault e in
    (lift (loginWithDeviceCode (deviceCode (local m))) ;; ui_ret e)%ui m.

(** What the component shows under the [storeId] line: the "Logged in"
    box with the token and the Logout button, or the form with the input
    and the Login button. *)
Inductive View : Type :=
| Panel (id : jsstring) (token : option jsstring)
| Form (id : jsstring) (value : jsstring).

Definition render (st : State) (s : SessionState) : View :=
  if isLoggedIn s then Panel (storeId s) (accessToken s)
  else Form (storeId s) (deviceCode st).

Definition view (m : Mounted State) : View :=
  render (local m) (store (app m)).

(** What a user can do on the screen. *)
Inductive Event : Type :=
| Change (value : jsstring)     (* type into the input *)
| Submit                        (* submit the form *)
| ClickLogout.                  (* press the Logout button *)

(** The controls each view has. *)
Definition offers (v : View) (ev : Event) : bool :=
  match v, ev with
  | Form _ _, Change _ => true
  | Form _ _, Submit => true
  | Panel _ _, ClickLogout => true
  | _, _ => false
  end.

(** The handler wired to each control. *)
Definition dispatch (ev : Event) : UI State unit :=
  match ev with
  | Change value => setDeviceCode value
  | Submit => (_ <- handleSubmit {| defaultPrevented := false |} ;; ui_ret tt)%ui
  | ClickLogout => lift logout
  end.

Definition after (ev : Event) (m : Mounted State) : Mounted State :=
  snd (dispatch ev m).

(** The component freshly mounted in a reachable world, and every state
    a user gets it to with the controls on display. *)
Inductive session : Mounted State -> Prop :=
| session_mount (w : World) :
    reachable w -> session {| local := initial; app := w |}
| session_event (ev : Event) (m : Mounted State) :
    session m -> offers (view m) ev = true -> session (after ev m).

End Login.

(** *** The Dashboard screen *)

Module Dashboard.

(** The [storeId] line and the "Session Status" box: "Logged in" with
    the token, or "Not logged in". *)
Inductive View : Type :=
| LoggedIn (id : jsstring) (token : option jsstring)
| NotLoggedIn (id : jsstring).

Definition render (s : SessionState) : View :=
  if isLoggedIn s then LoggedIn (storeId s) (accessToken s)
  else NotLoggedIn (storeId s).

End Dashboard.

(** *** The navigation bar *)

Module NavBar.

(** [<Link to=...>label</Link>] *)
Record Link : Type := { to : jsstring; label : jsstring }.

Definition links : list Link :=
  [ {| to := js "/dashboard";   label := js "Dashboard" |};
    {| to := js "/tournaments"; label := js "Tournaments" |};
    {| to := js "/login";       label := js "Login" |} ].

End NavBar.

(** The heading each screen renders first. *)
Definition heading (e : Element) : option jsstring :=
  match e with
  | DashboardScreen => Some (js "Dashboard")
  | TournamentsScreen => Some (js "Tournaments")
  | LoginScreen => Some (js "Login")
  | Navigate _ _ => None
  end.

(* ===================================================================== *)
(** * Properties *)
(* ===================================================================== *)

(** ** Trimming *)

Section Trim.
Import JsString.

Lemma drop_while_nil_iff (p : N -> bool) (s : jsstring) :
  drop_while p s = [] <-> forallb p s = true.
Proof.
  induction s as [|c s IH]; cbn.
  - tauto.
  - destruct (p c); cbn.
    + exact IH.
    + split; discriminate.
Qed.

Lemma drop_while_head (p : N -> bool) (s : jsstring) (c : N) (rest : jsstring) :
  drop_while p s = c :: rest -> p c = false.
Proof.
  induction s as [|d s IH]; cbn.
  - discriminate.
  - destruct (p d) eqn:Hd.
    + exact IH.
    + intros [= -> _]. exact Hd.
Qed.

Lemma forallb_rev (p : N -> bool) (s : jsstring) :
  forallb p (rev s) = forallb p s.
Proof.
  induction s as [|c s IH]; cbn.
  - reflexivity.
  - rewrite forallb_app, IH. cbn. rewrite andb_true_r. apply andb_comm.
Qed.

(** Trimming leaves nothing exactly when there was only white space. *)
Lemma trim_nil_iff (s : jsstring) :
  trim s = [] <-> whitespace_only s = true.
Proof.
  unfold trim, trimEnd, trimStart, whitespace_only. split.
  - intros H.
    apply (f_equal (@rev N)) in H. rewrite rev_involutive in H. cbn in H.
    apply drop_while_nil_iff in H. rewrite forallb_rev in H.
    destruct (drop_while is_trimmable s) as [|c rest] eqn:E.
    + now apply drop_while_nil_iff.
    + apply drop_while_head in E. cbn in H. rewrite E in H. discriminate.
  - intros H. apply drop_while_nil_iff in H. rewrite H. reflexivity.
Qed.

Example trim_both_ends :
  trim (js "  ABC123-XYZ ") = js "ABC123-XYZ" /\
  trim (js " a b ") = js "a b" /\
  trim [0x00A0; 0x0009; 0x000A; 0x3000]%N = [].
Proof. repeat split. Qed.

Lemma trim_nil : trim [] = [].
Proof. reflexivity. Qed.

Lemma trim_nonempty_truthy (s : jsstring) :
  trim s <> [] -> truthy s = true.
Proof.
  destruct s; [intros H; now contradiction H | reflexivity].
Qed.

Lemma trim_nonempty_length (s : jsstring) :
  trim s <> [] -> (0 <? length (trim s)) = true.
Proof.
  destruct (trim s); [intros H; now contradiction H | reflexivity].
Qed.

End Trim.

(** ** The two store operations, as equations *)

Lemma login_nonblank_eq (code : jsstring) (w : World) :
  JsString.trim code <> [] ->
  loginWithDeviceCode code w =
    (Normal tt,
     {| store := {| storeId := storeId (store w);
                    accessToken := Some (JsString.concat token_prefix (JsString.trim code));
                    isLoggedIn := true |};
        console := console w |}).
Proof.
  intros H. unfold loginWithDeviceCode.
  rewrite (trim_nonempty_truthy code H), (trim_nonempty_length code H).
  reflexivity.
Qed.

Lemma login_blank_eq (code : jsstring) (w : World) :
  JsString.trim code = [] ->
  loginWithDeviceCode code w =
    (Normal tt, {| store := store w; console := console w ++ [warning_entry] |}).
Proof.
  intros H. unfold loginWithDeviceCode. rewrite H. cbn.
  rewrite andb_false_r. reflexivity.
Qed.

Lemma logout_eq (w : World) :
  logout w =
    (Normal tt,
     {| store := {| storeId := storeId (store w);
                    accessToken := None;
                    isLoggedIn := false |};
        console := console w |}).
Proof. reflexivity. Qed.

Lemma trim_dec (code : jsstring) :
  {JsString.trim code = []} + {JsString.trim code <> []}.
Proof. destruct (JsString.trim code); [left | right]; congruence. Qed.

(** Either operation returns to its caller. *)
Lemma perform_returns (a : Action) (w : World) :
  completion (perform a) w = Normal tt.
Proof.
  destruct a as [code|]; cbn.
  - unfold completion. destruct (trim_dec code) as [E|E].
    + now rewrite login_blank_eq.
    + now rewrite login_nonblank_eq.
  - reflexivity.
Qed.

Lemma invariant_after_login (code : jsstring) (w : World) :
  session_invariant (store w) ->
  session_invariant (store (exec (loginWithDeviceCode code) w)).
Proof.
  intros Hinv. unfold exec. destruct (trim_dec code) as [E|E].
  - rewrite login_blank_eq by exact E. exact Hinv.
  - rewrite login_nonblank_eq by exact E. cbn. split.
    + discriminate.
    + reflexivity.
Qed.

Lemma invariant_after_logout (w : World) :
  session_invariant (store (exec logout w)).
Proof.
  unfold exec. rewrite logout_eq. cbn. split.
  - discriminate.
  - intros H. now contradiction H.
Qed.

(** ** Session store: the claims *)

(** C1. The invariant "[isLoggedIn] is true if and only if [accessToken] is
    not null" holds of the initial state, is preserved by
    [loginWithDeviceCode] with any code and by [logout], and so holds in
    every reachable state. *)
Theorem session_invariant_holds :
  session_invariant initial_state /\
  (forall code w, session_invariant (store w) ->
                  session_invariant (store (exec (loginWithDeviceCode code) w))) /\
  (forall w, session_invariant (store w) ->
             session_invariant (store (exec logout w))) /\
  (forall w, reachable w -> session_invariant (store w)).
Proof.
  assert (H0 : session_invariant initial_state).
  { split; [discriminate | intros H; now contradiction H]. }
  split; [exact H0 | split; [|split]].
  - intros code w Hinv. now apply invariant_after_login.
  - intros w _. apply invariant_after_logout.
  - intros w Hw. induction Hw as [|a w Hw IH].
    + exact H0.
    + destruct a as [code|]; cbn [perform].
      * now apply invariant_after_login.
      * apply invariant_after_logout.
Qed.

(** The invariant after a login and a logout, by the theorem. *)
Lemma session_invariant_holds_witness :
  reachable (exec logout (exec (loginWithDeviceCode (js "ABC123-XYZ")) initial_world)) /\
  session_invariant (store (exec (loginWithDeviceCode (js "  ")) initial_world)) /\
  session_invariant
    (store (exec logout (exec (loginWithDeviceCode (js "ABC123-XYZ")) initial_world))).
Proof.
  split; [|split].
  - apply (reachable_step Logout).
    apply (reachable_step (LoginWithDeviceCode (js "ABC123-XYZ"))).
    apply reachable_initial.
  - apply (proj1 (proj2 session_invariant_holds)).
    exact (proj1 session_invariant_holds).
  - apply (proj2 (proj2 (proj2 session_invariant_holds))).
    apply (reachable_step Logout).
    apply (reachable_step (LoginWithDeviceCode (js "ABC123-XYZ"))).
    apply reachable_initial.
Defined.

(** C2. For a code whose trimmed form is not empty, [loginWithDeviceCode]
    returns, and leaves [isLoggedIn = true] and [accessToken] equal to the
    prefix followed by the trimmed code; with the code "ABC123-XYZ" the
    token is "mock_access_token_ABC123-XYZ", whatever the state before. *)
Theorem login_nonblank_sets_token :
  (forall code w,
     JsString.trim code <> [] ->
     completion (loginWithDeviceCode code) w = Normal tt /\
     isLoggedIn (store (exec (loginWithDeviceCode code) w)) = true /\
     accessToken (store (exec (loginWithDeviceCode code) w)) =
       Some (JsString.concat token_prefix (JsString.trim code))) /\
  (forall w,
     isLoggedIn (store (exec (loginWithDeviceCode (js "ABC123-XYZ")) w)) = true /\
     accessToken (store (exec (loginWithDeviceCode (js "ABC123-XYZ")) w)) =
       Some (js "mock_access_token_ABC123-XYZ")).
Proof.
  split.
  - intros code w H. unfold completion, exec.
    rewrite login_nonblank_eq by exact H. cbn. auto.
  - intros w. split; reflexivity.
Qed.

(** The code is trimmed before the token is made. *)
Lemma login_nonblank_sets_token_witness :
  JsString.trim (js "  ABC123-XYZ ") <> [] /\
  isLoggedIn (store (exec (loginWithDeviceCode (js "  ABC123-XYZ ")) initial_world)) = true /\
  accessToken (store (exec (loginWithDeviceCode (js "  ABC123-XYZ ")) initial_world)) =
    Some (js "mock_access_token_ABC123-XYZ").
Proof.
  assert (H : JsString.trim (js "  ABC123-XYZ ") <> []) by (vm_compute; discriminate).
  split; [exact H|].
  exact (proj2 (proj1 login_nonblank_sets_token (js "  ABC123-XYZ ") initial_world H)).
Defined.

(** C3. For a code that is empty or consists of white space only,
    [loginWithDeviceCode] returns normally, leaves the store as it was,
    and appends one warning to the console. *)
Theorem login_blank_is_noop (code : jsstring) (w : World) :
  code = [] \/ JsString.whitespace_only code = true ->
  loginWithDeviceCode code w =
    (Normal tt, {| store := store w; console := console w ++ [warning_entry] |}).
Proof.
  intros H. apply login_blank_eq, trim_nil_iff.
  destruct H as [-> | H]; [reflexivity | exact H].
Qed.

(** Three spaces, after a login: the session stays as it was. *)
Lemma login_blank_is_noop_witness :
  JsString.whitespace_only (js "   ") = true /\
  store (exec (loginWithDeviceCode (js "   "))
              (exec (loginWithDeviceCode (js "ABC123-XYZ")) initial_world)) =
    store (exec (loginWithDeviceCode (js "ABC123-XYZ")) initial_world) /\
  loginWithDeviceCode [] initial_world =
    (Normal tt, {| store := initial_state; console := [warning_entry] |}).
Proof.
  split; [reflexivity | split].
  - unfold exec at 1.
    rewrite (login_blank_is_noop (js "   ") _ (or_intror eq_refl)).
    reflexivity.
  - exact (login_blank_is_noop [] initial_world (or_introl eq_refl)).
Defined.

(** C4. Whatever the state before, [logout] returns and leaves
    [accessToken = null] and [isLoggedIn = false]. *)
Theorem logout_clears_session (w : World) :
  completion logout w = Normal tt /\
  accessToken (store (exec logout w)) = None /\
  isLoggedIn (store (exec logout w)) = false.
Proof. repeat split. Qed.

(** C7. [logout] twice leaves exactly the world one [logout] leaves. *)
Theorem logout_idempotent (w : World) :
  (logout ;; logout) w = logout w /\
  exec logout (exec logout w) = exec logout w.
Proof. split; reflexivity. Qed.

(** C8. A login with any code followed by a login with a non-blank code
    leaves the session state the second login alone would leave: logged
    in, with the second code's token. *)
Theorem relogin_overwrites (a b : jsstring) (w : World) :
  JsString.trim b <> [] ->
  store (exec (loginWithDeviceCode a ;; loginWithDeviceCode b) w) =
    store (exec (loginWithDeviceCode b) w) /\
  isLoggedIn (store (exec (loginWithDeviceCode a ;; loginWithDeviceCode b) w)) = true /\
  accessToken (store (exec (loginWithDeviceCode a ;; loginWithDeviceCode b) w)) =
    Some (JsString.concat token_prefix (JsString.trim b)).
Proof.
  intros Hb.
  assert (E : store (exec (loginWithDeviceCode a ;; loginWithDeviceCode b) w) =
              store (exec (loginWithDeviceCode b) w)).
  { unfold exec, bind. destruct (trim_dec a) as [Ha|Ha].
    - rewrite (login_blank_eq a w Ha). rewrite !(login_nonblank_eq b _ Hb). reflexivity.
    - rewrite (login_nonblank_eq a w Ha). rewrite !(login_nonblank_eq b _ Hb). reflexivity. }
  rewrite E. unfold exec. rewrite (login_nonblank_eq b w Hb). cbn. auto.
Qed.

(** A blank first code and an earlier session do not show afterwards. *)
Lemma relogin_overwrites_witness :
  JsString.trim (js "second") <> [] /\
  store (exec (loginWithDeviceCode (js "first") ;; loginWithDeviceCode (js "second"))
              initial_world) =
    store (exec (loginWithDeviceCode (js "second")) initial_world) /\
  accessToken
    (store (exec (loginWithDeviceCode (js " ") ;; loginWithDeviceCode (js "second"))
                 (exec (loginWithDeviceCode (js "zero")) initial_world))) =
    Some (js "mock_access_token_second").
Proof.
  assert (H : JsString.trim (js "second") <> []) by (vm_compute; discriminate).
  split; [exact H | split].
  - exact (proj1 (relogin_overwrites (js "first") (js "second") initial_world H)).
  - exact (proj2 (proj2 (relogin_overwrites (js " ") (js "second")
                           (exec (loginWithDeviceCode (js "zero")) initial_world) H))).
Defined.

(** C10. No store operation changes [storeId]: not [loginWithDeviceCode],
    with a blank code or another, and not [logout]; the object literals
    they hand to [set] name [accessToken] and [isLoggedIn] only. *)
Theorem storeId_is_framed :
  (forall code w,
     storeId (store (exec (loginWithDeviceCode code) w)) = storeId (store w)) /\
  (forall w, storeId (store (exec logout w)) = storeId (store w)) /\
  (forall s acc flag,
     storeId (assign s {| p_storeId := None; p_accessToken := acc; p_isLoggedIn := flag |})
       = storeId s) /\
  (forall actions,
     storeId (store (fold_left (fun w a => exec (perform a) w) actions initial_world))
       = js "SESSION_STORE_SINGLETON").
Proof.
  assert (L : forall code w,
             storeId (store (exec (loginWithDeviceCode code) w)) = storeId (store w)).
  { intros code w. unfold exec. destruct (trim_dec code) as [E|E].
    - now rewrite login_blank_eq.
    - now rewrite login_nonblank_eq. }
  repeat split; try exact L; try reflexivity.
  intros actions.
  change (js "SESSION_STORE_SINGLETON") with (storeId (store initial_world)).
  generalize initial_world as w.
  induction actions as [|a actions IH]; intros w; cbn [fold_left].
  - reflexivity.
  - rewrite IH. destruct a; [apply L | reflexivity].
Qed.

(** ** Tournament loader: the claims *)

(** C5. [loadTournamentNames] never throws and its promise is never
    rejected, whatever [invoke] does; when [invoke] throws or its promise
    is rejected, the loader's promise is fulfilled with the empty list,
    after one [console.error] entry carrying the caught value. *)
Theorem loadTournamentNames_never_rejects
    (invoke : jsstring -> JS (Promise (list jsstring))) (w : World) :
  (exists p w',
     loadTournamentNames invoke w = (Normal p, w') /\ forall e, p <> Rejected e) /\
  (forall e w1,
     invoke (js "get_tournaments") w = (Throw e, w1) \/
     invoke (js "get_tournaments") w = (Normal (Rejected e), w1) ->
     loadTournamentNames invoke w =
       (Normal (Fulfilled []),
        {| store := store w1; console := console w1 ++ [failure_entry e] |})).
Proof.
  unfold loadTournamentNames, async, try_catch, bind. split.
  - destruct (invoke (js "get_tournaments") w) as [[[names|e|]|e|] w1]; cbn;
      eexists; eexists; (split; [reflexivity | discriminate]).
  - intros e w1 [H|H]; rewrite H; reflexivity.
Qed.

(** A rejected backend call: the loader answers the empty list. *)
Lemma loadTournamentNames_never_rejects_witness :
  loadTournamentNames (invoke_rejecting (VError (js "database is locked"))) initial_world =
    (Normal (Fulfilled []),
     {| store := initial_state;
        console := [failure_entry (VError (js "database is locked"))] |}).
Proof.
  exact (proj2 (loadTournamentNames_never_rejects
                  (invoke_rejecting (VError (js "database is locked"))) initial_world)
               (VError (js "database is locked")) initial_world
               (or_intror eq_refl)).
Defined.

(** C6. When [invoke] answers with a list of names, the loader's promise
    is fulfilled with that very list: same elements, same order, nothing
    dropped or merged; and the loader logs nothing. *)
Theorem loadTournamentNames_passes_through
    (invoke : jsstring -> JS (Promise (list jsstring)))
    (names : list jsstring) (w w1 : World) :
  invoke (js "get_tournaments") w = (Normal (Fulfilled names), w1) ->
  loadTournamentNames invoke w = (Normal (Fulfilled names), w1).
Proof.
  intros H. unfold loadTournamentNames, async, try_catch, bind.
  rewrite H. reflexivity.
Qed.

(** Names out of order and with a repeat come back as they were sent. *)
Lemma loadTournamentNames_passes_through_witness :
  loadTournamentNames
    (invoke_answering [js "Winter Cup"; js "Spring Open"; js "Winter Cup"])
    initial_world =
  (Normal (Fulfilled [js "Winter Cup"; js "Spring Open"; js "Winter Cup"]),
   initial_world).
Proof.
  exact (loadTournamentNames_passes_through
           (invoke_answering [js "Winter Cup"; js "Spring Open"; js "Winter Cup"])
           [js "Winter Cup"; js "Spring Open"; js "Winter Cup"]
           initial_world initial_world eq_refl).
Defined.

(** ** Percent-decoding *)

Section Decoding.
Import Uri.

Example decodeURIComponent_escapes :
  decodeURIComponent (js "log%69n") = Some (js "login") /\
  decodeURIComponent (js "a%0Ab") = Some [97; 10; 98]%N /\
  decodeURIComponent (js "%E2%82%AC") = Some [0x20AC]%N /\
  decodeURIComponent (js "%F0%9F%98%80") = Some [0xD83D; 0xDE00]%N.
Proof. repeat split. Qed.

Example decodeURIComponent_throws :
  decodeURIComponent (js "%") = None /\
  decodeURIComponent (js "%4") = None /\
  decodeURIComponent (js "%zz") = None /\
  decodeURIComponent (js "%80") = None /\
  decodeURIComponent (js "%C0%80") = None /\
  decodeURIComponent (js "%ED%A0%80") = None /\
  decodeURIComponent (js "%E2%82") = None.
Proof. repeat split. Qed.

Example decodePath_examples :
  Router.decodePath (js "/log%69n") = js "/login" /\
  Router.decodePath (js "/a%2Fb/c") = js "/a%2Fb/c" /\
  Router.decodePath (js "/a%/b%41") = js "/a%/b%41" /\
  Router.matched_pathname [] = js "/".
Proof. repeat split. Qed.

Lemma take_octet_length (s : jsstring) (b : N) (rest : jsstring) :
  take_octet s = Some (b, rest) -> List.length s = (3 + List.length rest)%nat.
Proof.
  destruct s as [|c [|h1 [|h2 s]]]; cbn; try discriminate.
  destruct (c =? percent)%N; [|discriminate].
  destruct (hex_digit h1); [|discriminate].
  destruct (hex_digit h2); [|discriminate].
  now intros [= _ <-].
Qed.

Lemma take_continuations_length (n : nat) (acc : N) (s : jsstring)
      (cp : N) (rest : jsstring) :
  take_continuations n acc s = Some (cp, rest) ->
  (List.length rest <= List.length s)%nat.
Proof.
  revert acc s. induction n as [|n IH]; intros acc s; cbn [take_continuations].
  - now intros [= _ <-].
  - destruct (take_octet s) as [[b s1]|] eqn:E; [|discriminate].
    destruct (is_continuation b); [|discriminate].
    intros H. apply IH in H. apply take_octet_length in E. lia.
Qed.

(** Fuel beyond the length of the string makes no difference: the loop
    of [decodeURIComponent] always runs to its end. *)
Lemma decode_fuel (fuel1 fuel2 : nat) (s : jsstring) :
  (List.length s <= fuel1)%nat -> (List.length s <= fuel2)%nat ->
  decode fuel1 s = decode fuel2 s.
Proof.
  revert fuel2 s. induction fuel1 as [|fuel1 IH]; intros fuel2 s H1 H2;
    destruct s as [|c s'].
  - destruct fuel2; reflexivity.
  - cbn in H1. lia.
  - destruct fuel2; reflexivity.
  - destruct fuel2 as [|fuel2]; [cbn in H2; lia|].
    cbn [List.length] in H1, H2. cbn [decode].
    destruct (c =? percent)%N.
    + destruct (take_octet (c :: s')) as [[b rest]|] eqn:E; [|reflexivity].
      apply take_octet_length in E. cbn [List.length] in E.
      destruct (b <? 128)%N.
      * f_equal. apply IH; lia.
      * destruct (leading b) as [[|more] bits]; [reflexivity|].
        destruct (take_continuations more bits rest) as [[cp rest']|] eqn:E2;
          [|reflexivity].
        apply take_continuations_length in E2.
        destruct (well_formed (S more) cp); [|reflexivity].
        f_equal. apply IH; lia.
    + f_equal. apply IH; lia.
Qed.

Lemma decode_plain (s : jsstring) (fuel : nat) :
  forallb plain s = true -> (List.length s <= fuel)%nat -> decode fuel s = Some s.
Proof.
  revert fuel. induction s as [|c s IH]; intros fuel H Hf;
    [destruct fuel; reflexivity|].
  destruct fuel as [|fuel]; [cbn in Hf; lia|].
  cbn [forallb] in H. apply andb_true_iff in H. destruct H as [Hc H].
  cbn [decode]. unfold plain in Hc. apply negb_true_iff in Hc. rewrite Hc.
  rewrite (IH fuel H) by (cbn in Hf; lia). reflexivity.
Qed.

Lemma escape_slashes_none (s : jsstring) :
  forallb (fun c => negb (Router.is_slash c)) s = true ->
  Router.escape_slashes s = s.
Proof.
  induction s as [|c s IH]; [reflexivity|].
  cbn [forallb]. intros H. apply andb_true_iff in H. destruct H as [Hc H].
  unfold Router.escape_slashes in *. cbn [flat_map].
  apply negb_true_iff in Hc. rewrite Hc, (IH H). reflexivity.
Qed.

(** A segment without escapes comes out of the decoding as it went in. *)
Lemma decode_segments_plain (segments : list jsstring) :
  Forall Router.plain_segment segments ->
  Router.decode_segments segments = Some segments.
Proof.
  induction 1 as [|seg segments [Hp Hs] _ IH]; [reflexivity|].
  cbn [Router.decode_segments]. unfold decodeURIComponent.
  rewrite (decode_plain seg _ Hp (le_n _)), IH, (escape_slashes_none seg Hs).
  reflexivity.
Qed.

Lemma split_slash_plain (s cur : jsstring) :
  forallb plain s = true -> Router.plain_segment (rev cur) ->
  Forall Router.plain_segment (Router.split_slash s cur).
Proof.
  revert cur. induction s as [|c s IH]; intros cur H Hcur; cbn [Router.split_slash].
  - now constructor.
  - cbn [forallb] in H. apply andb_true_iff in H. destruct H as [Hc H].
    destruct (Router.is_slash c) eqn:E.
    + constructor; [exact Hcur|]. apply IH; [exact H | now split].
    + apply IH; [exact H|]. destruct Hcur as [H1 H2]. cbn [rev].
      split; rewrite forallb_app; cbn [forallb].
      * now rewrite H1, Hc.
      * now rewrite H2, E.
Qed.

Lemma split_slash_nonempty (s cur : jsstring) :
  Router.split_slash s cur <> [].
Proof.
  revert cur. induction s as [|c s IH]; intros cur; cbn [Router.split_slash].
  - discriminate.
  - destruct (Router.is_slash c); [discriminate | apply IH].
Qed.

Lemma join_split_slash (s cur : jsstring) :
  Router.join_slash (Router.split_slash s cur) = rev cur ++ s.
Proof.
  revert cur. induction s as [|c s IH]; intros cur; cbn [Router.split_slash].
  - cbn. now rewrite app_nil_r.
  - destruct (Router.is_slash c) eqn:E.
    + specialize (IH []). cbn [rev app] in IH.
      unfold Router.is_slash in E. apply N.eqb_eq in E. subst c.
      destruct (Router.split_slash s []) as [|seg segments] eqn:Es.
      * now apply split_slash_nonempty in Es.
      * change (Router.join_slash (rev cur :: seg :: segments))
          with (rev cur ++ Router.slash :: Router.join_slash (seg :: segments)).
        now rewrite IH.
    + rewrite IH. cbn [rev]. now rewrite <- app_assoc.
Qed.

(** A pathname without escapes is matched as it is. *)
Lemma matched_pathname_plain (p : jsstring) :
  p <> [] -> forallb plain p = true -> Router.matched_pathname p = p.
Proof.
  intros Hne Hp. unfold Router.matched_pathname.
  destruct p as [|c p']; [now contradiction Hne|].
  unfold Router.decodePath.
  rewrite (decode_segments_plain _ (split_slash_plain (c :: p') [] Hp (conj eq_refl eq_refl))).
  apply (join_split_slash (c :: p') []).
Qed.

End Decoding.

(** ** Route matching *)

Section RouteMatching.
Import Router.

Lemma canonicalize_slash (c : N) :
  (canonicalize slash =? canonicalize c)%N = is_slash c.
Proof.
  unfold is_slash. change (canonicalize slash) with slash. unfold canonicalize, slash.
  destruct ((97 <=? c)%N && (c <=? 122)%N) eqn:E.
  - apply andb_true_iff in E. destruct E as [E1 E2].
    apply N.leb_le in E1. apply N.leb_le in E2.
    destruct (N.eqb_spec 47 (c - 32)) as [H|H];
      destruct (N.eqb_spec c 47) as [H'|H']; trivial; exfalso; lia.
  - apply N.eqb_sym.
Qed.

(** A match needs the literal part of the pattern at the start of the
    pathname. *)
Lemma matchPath_literal (pattern p : jsstring) :
  matchPath pattern p = true ->
  exists rest, strip_literal (literal_part pattern) p = Some rest.
Proof.
  unfold matchPath.
  destruct (strip_literal (literal_part pattern) p) as [rest|].
  - intros _. now exists rest.
  - discriminate.
Qed.

Lemma strip_literal_second (a b : N) (literal p rest : jsstring) :
  strip_literal (a :: b :: literal) p = Some rest ->
  exists c d p', p = c :: d :: p' /\ canonicalize b = canonicalize d.
Proof.
  destruct p as [|c [|d p']]; cbn.
  - discriminate.
  - destruct (canonicalize a =? canonicalize c)%N; discriminate.
  - destruct (canonicalize a =? canonicalize c)%N; [|discriminate].
    destruct (N.eqb_spec (canonicalize b) (canonicalize d)) as [E|]; [|discriminate].
    intros _. now exists c, d, p'.
Qed.

(** [strip_literal] succeeds exactly on a case-folded copy of the literal
    followed by the rest. *)
Lemma strip_literal_spec (literal p rest : jsstring) :
  strip_literal literal p = Some rest <->
  exists pre, p = pre ++ rest /\ map canonicalize pre = map canonicalize literal.
Proof.
  revert p. induction literal as [|l literal IH]; intros p; cbn.
  - split.
    + intros [= ->]. now exists [].
    + intros (pre & -> & E). destruct pre; [reflexivity | discriminate].
  - destruct p as [|c p'].
    + split; [discriminate|].
      intros (pre & E & E'). destruct pre; discriminate.
    + destruct (N.eqb_spec (canonicalize l) (canonicalize c)) as [Hc|Hc].
      * rewrite IH. split.
        -- intros (pre & -> & E). exists (c :: pre). cbn. now rewrite E, Hc.
        -- intros (pre & E & E'). destruct pre as [|c' pre]; [discriminate|].
           cbn in E, E'. injection E as <- ->. injection E' as _ E'.
           now exists pre.
      * split; [discriminate|].
        intros (pre & E & E'). destruct pre as [|c' pre]; [discriminate|].
        cbn in E, E'. injection E as <- _. injection E' as E' _.
        now contradiction Hc.
Qed.

(** A pattern without a final star matches the pathnames that spell its
    literal part in any letter case, followed by any number of slashes. *)
Lemma matchPath_static (pattern p : jsstring) :
  endsWith_star pattern = false ->
  matchPath pattern p = true <->
  exists pre slashes,
    p = pre ++ slashes /\
    map canonicalize pre = map canonicalize (literal_part pattern) /\
    forallb is_slash slashes = true.
Proof.
  intros Hstar. unfold matchPath. rewrite Hstar. split.
  - destruct (strip_literal (literal_part pattern) p) as [rest|] eqn:E;
      [|discriminate].
    intros Hrest. apply strip_literal_spec in E. destruct E as (pre & -> & E).
    now exists pre, rest.
  - intros (pre & slashes & -> & E & Hs).
    assert (H : strip_literal (literal_part pattern) (pre ++ slashes) = Some slashes).
    { apply strip_literal_spec. now exists pre. }
    rewrite H. exact Hs.
Qed.

Example matchPath_login_upper_case :
  matchPath (js "/login") (js "/LogIn") = true.
Proof. reflexivity. Qed.

Example matchPath_login_trailing_slash :
  matchPath (js "/login") (js "/login/") = true.
Proof. reflexivity. Qed.

Example matchPath_login_longer_path :
  matchPath (js "/login") (js "/login/help") = false /\
  matchPath (js "/login") (js "/logins") = false.
Proof. split; reflexivity. Qed.

Example rank_browser :
  map path (rankRouteBranches AppBrowserRouter.routes) =
    [js "/login"; js "/dashboard"; js "/tournaments"; js "/"].
Proof. reflexivity. Qed.

(** Two patterns whose literal parts differ at the second code unit,
    case folded, match no pathname in common. *)
Lemma matchPath_disjoint (pat1 pat2 p : jsstring)
      (a1 b1 a2 b2 : N) (l1 l2 : jsstring) :
  literal_part pat1 = a1 :: b1 :: l1 ->
  literal_part pat2 = a2 :: b2 :: l2 ->
  canonicalize b1 <> canonicalize b2 ->
  matchPath pat1 p = true -> matchPath pat2 p = false.
Proof.
  intros E1 E2 Hne H1.
  destruct (matchPath pat2 p) eqn:H2; [|reflexivity].
  apply matchPath_literal in H1. apply matchPath_literal in H2.
  destruct H1 as [r1 H1]. destruct H2 as [r2 H2].
  rewrite E1 in H1. rewrite E2 in H2.
  apply strip_literal_second in H1. apply strip_literal_second in H2.
  destruct H1 as (c & d & p' & -> & Hb1).
  destruct H2 as (c' & d' & p'' & [= _ <- _] & Hb2).
  congruence.
Qed.

(** The splat route matches exactly the pathnames. *)
Lemma matchPath_splat (p : jsstring) :
  matchPath (js "*") p = is_pathname p.
Proof.
  destruct p as [|c rest].
  - reflexivity.
  - unfold matchPath, is_pathname.
    change (literal_part (js "*")) with [slash].
    cbn [strip_literal]. rewrite canonicalize_slash.
    destruct (is_slash c); reflexivity.
Qed.

Lemma rank_hash :
  rankRouteBranches AppHashRouter.routes =
    [ {| path := js "/dashboard";   element := DashboardScreen |};
      {| path := js "/tournaments"; element := TournamentsScreen |};
      {| path := js "/login";       element := LoginScreen |};
      {| path := js "/";            element := Navigate (js "/dashboard") true |};
      {| path := js "*";            element := Navigate (js "/dashboard") true |} ].
Proof. reflexivity. Qed.

(** The routes of [App] (HashRouter), tried in rank order on the decoded
    pathname. *)
Lemma matchRoutes_hash (p : jsstring) :
  matchRoutes AppHashRouter.routes p =
    if matchPath (js "/dashboard") (matched_pathname p) then Some DashboardScreen
    else if matchPath (js "/tournaments") (matched_pathname p) then Some TournamentsScreen
    else if matchPath (js "/login") (matched_pathname p) then Some LoginScreen
    else if matchPath (js "/") (matched_pathname p)
         then Some (Navigate (js "/dashboard") true)
    else if matchPath (js "*") (matched_pathname p)
         then Some (Navigate (js "/dashboard") true)
    else None.
Proof.
  unfold matchRoutes. rewrite rank_hash. cbn [find path].
  generalize (matched_pathname p) as q. intros q.
  repeat match goal with
         | |- context [if matchPath ?a q then _ else _] =>
             destruct (matchPath a q); cbn [option_map element]; try reflexivity
         end.
Qed.

Lemma rank_browser_routes :
  rankRouteBranches AppBrowserRouter.routes =
    [ {| path := js "/login";       element := LoginScreen |};
      {| path := js "/dashboard";   element := DashboardScreen |};
      {| path := js "/tournaments"; element := TournamentsScreen |};
      {| path := js "/";            element := Navigate (js "/dashboard") true |} ].
Proof. reflexivity. Qed.

(** The routes of the other [App] (BrowserRouter), tried in rank order
    on the decoded pathname. *)
Lemma matchRoutes_browser (p : jsstring) :
  matchRoutes AppBrowserRouter.routes p =
    if matchPath (js "/login") (matched_pathname p) then Some LoginScreen
    else if matchPath (js "/dashboard") (matched_pathname p) then Some DashboardScreen
    else if matchPath (js "/tournaments") (matched_pathname p) then Some TournamentsScreen
    else if matchPath (js "/") (matched_pathname p)
         then Some (Navigate (js "/dashboard") true)
    else None.
Proof.
  unfold matchRoutes. rewrite rank_browser_routes. cbn [find path].
  generalize (matched_pathname p) as q. intros q.
  repeat match goal with
         | |- context [if matchPath ?a q then _ else _] =>
             destruct (matchPath a q); cbn [option_map element]; try reflexivity
         end.
Qed.

(** A line terminator is no letter: case folding leaves it alone. *)
Lemma canonicalize_line_terminator (c : N) :
  JsString.is_line_terminator c = true -> canonicalize c = c.
Proof.
  unfold JsString.is_line_terminator, canonicalize. intros H.
  destruct ((97 <=? c)%N && (c <=? 122)%N) eqn:E; [|reflexivity].
  apply andb_true_iff in E. destruct E as [E1 E2].
  apply N.leb_le in E1. apply N.leb_le in E2.
  repeat (apply orb_true_iff in H; destruct H as [H|H]);
    apply N.eqb_eq in H; lia.
Qed.

(** A case-folded copy of a literal without line terminators has none. *)
Lemma dot_star_of_literal (pre literal : jsstring) :
  map canonicalize pre = map canonicalize literal ->
  forallb (fun l => negb (JsString.is_line_terminator (canonicalize l))) literal = true ->
  dot_star pre = true.
Proof.
  revert literal. induction pre as [|c pre IH]; intros [|l literal] E H;
    try discriminate E; [reflexivity|].
  cbn in E, H. injection E as Ec E. apply andb_true_iff in H. destruct H as [Hl H].
  specialize (IH literal E H). unfold dot_star in *. cbn [forallb].
  rewrite IH, andb_true_r.
  destruct (JsString.is_line_terminator c) eqn:Hc; [|reflexivity].
  rewrite <- Ec, (canonicalize_line_terminator c Hc), Hc in Hl. discriminate Hl.
Qed.

Lemma dot_star_slashes (s : jsstring) :
  forallb is_slash s = true -> dot_star s = true.
Proof.
  induction s as [|c s IH]; [reflexivity|].
  cbn [forallb]. intros H. apply andb_true_iff in H. destruct H as [Hc H].
  specialize (IH H). unfold dot_star in *. cbn [forallb]. rewrite IH, andb_true_r.
  unfold is_slash, slash in Hc. apply N.eqb_eq in Hc. now subst c.
Qed.

(** What a static pattern written on one line matches, the wildcard
    route matches too. *)
Lemma static_match_is_pathname (pattern q literal : jsstring) :
  endsWith_star pattern = false ->
  literal_part pattern = slash :: literal ->
  forallb (fun l => negb (JsString.is_line_terminator (canonicalize l))) literal = true ->
  matchPath pattern q = true ->
  is_pathname q = true.
Proof.
  intros Hstar Hlit Hone H.
  apply (matchPath_static pattern q Hstar) in H.
  destruct H as (pre & slashes & -> & E & Hs). rewrite Hlit in E.
  destruct pre as [|c pre]; [discriminate E|].
  cbn [map] in E. injection E as Ec E.
  assert (Hc : is_slash c = true).
  { rewrite <- canonicalize_slash, Ec. apply N.eqb_refl. }
  change (is_pathname ((c :: pre) ++ slashes))
    with (is_slash c && dot_star (pre ++ slashes)).
  rewrite Hc. cbn [andb]. unfold dot_star. rewrite forallb_app.
  fold (dot_star pre). fold (dot_star slashes).
  now rewrite (dot_star_of_literal pre literal E Hone), (dot_star_slashes slashes Hs).
Qed.

(** A string the wildcard route does not match is matched by none of the
    four static routes. *)
Lemma not_pathname_no_match (q : jsstring) :
  is_pathname q = false ->
  matchPath (js "/") q = false /\
  matchPath (js "/login") q = false /\
  matchPath (js "/dashboard") q = false /\
  matchPath (js "/tournaments") q = false.
Proof.
  intros Hq.
  assert (G : forall pattern,
             endsWith_star pattern = false ->
             literal_part pattern = slash :: skipn 1 (literal_part pattern) ->
             forallb (fun l => negb (JsString.is_line_terminator (canonicalize l)))
                     (skipn 1 (literal_part pattern)) = true ->
             matchPath pattern q = false).
  { intros pattern H1 H2 H3. destruct (matchPath pattern q) eqn:E; [|reflexivity].
    rewrite (static_match_is_pathname pattern q _ H1 H2 H3 E) in Hq.
    discriminate Hq. }
  repeat split; apply G; reflexivity.
Qed.

(** [App] with the wildcard route renders nothing exactly for the
    pathnames whose decoded form the wildcard route does not match. *)
Lemma matchRoutes_hash_none (p : jsstring) :
  matchRoutes AppHashRouter.routes p = None <->
  is_pathname (matched_pathname p) = false.
Proof.
  rewrite matchRoutes_hash, matchPath_splat. split.
  - repeat match goal with
           | |- context [if ?b then _ else _] => destruct b; try discriminate
           end.
    reflexivity.
  - intros Hq. destruct (not_pathname_no_match _ Hq) as (Hr & Hl & Hd & Ht).
    now rewrite Hd, Ht, Hl, Hr, Hq.
Qed.


Lemma login_not_dashboard (p : jsstring) :
  matchPath (js "/login") p = true -> matchPath (js "/dashboard") p = false.
Proof.
  apply matchPath_disjoint
    with (a1 := 47%N) (b1 := 108%N) (a2 := 47%N) (b2 := 100%N)
         (l1 := skipn 2 (js "/login")) (l2 := skipn 2 (js "/dashboard"));
    [reflexivity | reflexivity | vm_compute; discriminate].
Qed.

Lemma login_not_tournaments (p : jsstring) :
  matchPath (js "/login") p = true -> matchPath (js "/tournaments") p = false.
Proof.
  apply matchPath_disjoint
    with (a1 := 47%N) (b1 := 108%N) (a2 := 47%N) (b2 := 116%N)
         (l1 := skipn 2 (js "/login")) (l2 := skipn 2 (js "/tournaments"));
    [reflexivity | reflexivity | vm_compute; discriminate].
Qed.

(** Once at "/dashboard", the location stays there. *)
Lemma settle_dashboard (fuel : nat) :
  settle fuel AppHashRouter.routes (js "/dashboard") = Some DashboardScreen.
Proof. destruct fuel; reflexivity. Qed.

End RouteMatching.

(** ** Routes: the claim *)





(* ===================================================================== *)
(** * Further properties of the code *)
(* ===================================================================== *)

(** ** More on trimming *)

Section TrimAgain.
Import JsString.

Lemma drop_while_fixed (p : N -> bool) (s : jsstring) :
  match s with [] => True | c :: _ => p c = false end ->
  drop_while p s = s.
Proof.
  destruct s as [|c s]; cbn.
  - reflexivity.
  - intros ->. reflexivity.
Qed.

Lemma drop_while_starts (p : N -> bool) (s : jsstring) :
  match drop_while p s with [] => True | c :: _ => p c = false end.
Proof.
  destruct (drop_while p s) as [|c rest] eqn:E; [exact I|].
  exact (drop_while_head p s c rest E).
Qed.

Lemma drop_while_suffix (p : N -> bool) (s : jsstring) :
  exists pre, s = pre ++ drop_while p s.
Proof.
  induction s as [|c s [pre IH]]; cbn.
  - now exists [].
  - destruct (p c).
    + exists (c :: pre). cbn. now rewrite <- IH.
    + now exists [].
Qed.

(** What [trimEnd] keeps is a prefix of its argument. *)
Lemma trimEnd_prefix (s : jsstring) : exists k, s = trimEnd s ++ k.
Proof.
  unfold trimEnd.
  destruct (drop_while_suffix is_trimmable (rev s)) as [pre E].
  exists (rev pre).
  rewrite <- rev_app_distr, <- E. symmetry. apply rev_involutive.
Qed.

(** A trimmed string starts with a code unit [trim] keeps. *)
Lemma trim_starts (s : jsstring) :
  match trim s with [] => True | c :: _ => is_trimmable c = false end.
Proof.
  unfold trim.
  pose proof (drop_while_starts is_trimmable s) as H.
  fold (trimStart s) in H.
  destruct (trimEnd_prefix (trimStart s)) as [k E].
  destruct (trimEnd (trimStart s)) as [|c u]; [exact I|].
  rewrite E in H. exact H.
Qed.

(** Trimming a trimmed string changes nothing. *)
Lemma trim_idempotent (s : jsstring) : trim (trim s) = trim s.
Proof.
  pose proof (trim_starts s) as Hs.
  unfold trim at 1. unfold trimStart at 1.
  rewrite (drop_while_fixed is_trimmable (trim s) Hs).
  unfold trim, trimEnd. rewrite rev_involutive.
  rewrite (drop_while_fixed is_trimmable _
             (drop_while_starts is_trimmable (rev (trimStart s)))).
  reflexivity.
Qed.

End TrimAgain.

(** ** More on the session store *)

Lemma login_blank_iff (code : jsstring) :
  JsString.trim code = [] <-> JsString.whitespace_only code = true.
Proof. apply trim_nil_iff. Qed.

(** The store of a reachable world is the initial one, or holds the token
    of a trimmed, non-empty code. *)
Lemma reachable_store_shape (w : World) :
  reachable w ->
  store w = initial_state \/
  exists t, t <> [] /\ JsString.trim t = t /\ store w = logged_in_state t.
Proof.
  intros Hw. induction Hw as [|a w Hw IH].
  - now left.
  - assert (Hid : storeId (store w) = js "SESSION_STORE_SINGLETON").
    { destruct IH as [-> | (t & _ & _ & ->)]; reflexivity. }
    destruct a as [code|]; cbn [perform]; unfold exec.
    + destruct (trim_dec code) as [E|E].
      * rewrite (login_blank_eq code w E). exact IH.
      * rewrite (login_nonblank_eq code w E). cbn [snd store]. right.
        exists (JsString.trim code). split; [exact E|]. split.
        -- apply trim_idempotent.
        -- unfold logged_in_state. rewrite Hid, trim_idempotent. reflexivity.
    + rewrite logout_eq. cbn [snd store]. left.
      unfold initial_state. now rewrite Hid.
Qed.

(** X1. The session states the application can be in are exactly these:
    the initial one, and for each non-empty string [t] that trimming
    leaves as it is, the one that is logged in with the token
    "mock_access_token_" followed by [t]. *)
Theorem reachable_stores (s : SessionState) :
  (exists w, reachable w /\ store w = s) <->
  (s = initial_state \/
   exists t, t <> [] /\ JsString.trim t = t /\
             s = {| storeId := js "SESSION_STORE_SINGLETON";
                    accessToken := Some (JsString.concat token_prefix t);
                    isLoggedIn := true |}).
Proof.
  split.
  - intros (w & Hw & <-).
    destruct (reachable_store_shape w Hw) as [H | (t & Ht & Et & H)].
    + now left.
    + right. exists t. split; [exact Ht|]. split; [exact Et|].
      rewrite H. unfold logged_in_state. now rewrite Et.
  - intros [-> | (t & Ht & Et & ->)].
    + exists initial_world. split; [apply reachable_initial | reflexivity].
    + exists (exec (perform (LoginWithDeviceCode t)) initial_world). split.
      * apply reachable_step, reachable_initial.
      * cbn [perform]. unfold exec.
        rewrite (login_nonblank_eq t initial_world) by (rewrite Et; exact Ht).
        cbn. now rewrite Et.
Qed.

(** X2. Only the trimmed code matters to [loginWithDeviceCode]: two codes
    with the same trimmed form have the same effect, in every world. *)
Theorem login_depends_on_trimmed_code (a b : jsstring) (w : World) :
  JsString.trim a = JsString.trim b ->
  loginWithDeviceCode a w = loginWithDeviceCode b w.
Proof.
  intros E. destruct (trim_dec a) as [Ha|Ha].
  - rewrite (login_blank_eq a w Ha).
    rewrite (login_blank_eq b w) by (rewrite <- E; exact Ha). reflexivity.
  - rewrite (login_nonblank_eq a w Ha).
    rewrite (login_nonblank_eq b w) by (rewrite <- E; exact Ha).
    now rewrite E.
Qed.

(** White space around the code makes no difference. *)
Lemma login_depends_on_trimmed_code_witness :
  loginWithDeviceCode (js "  ABC123-XYZ ") initial_world =
  loginWithDeviceCode (js "ABC123-XYZ") initial_world.
Proof.
  exact (login_depends_on_trimmed_code
           (js "  ABC123-XYZ ") (js "ABC123-XYZ") initial_world eq_refl).
Defined.

(** X3. [logout] after a login leaves the session state [logout] alone
    would leave, whatever the state before; so from a logged-out state
    (no token, flag off), a login with any code followed by [logout]
    brings the session state back to what it was. *)
Theorem login_logout_round_trip (code : jsstring) (w : World) :
  store (exec (loginWithDeviceCode code ;; logout) w) = store (exec logout w) /\
  (isLoggedIn (store w) = false ->
   accessToken (store w) = None ->
   store (exec (loginWithDeviceCode code ;; logout) w) = store w).
Proof.
  assert (E : store (exec (loginWithDeviceCode code ;; logout) w)
              = store (exec logout w)).
  { unfold exec, bind. destruct (trim_dec code) as [Hc|Hc].
    - rewrite (login_blank_eq code w Hc). reflexivity.
    - rewrite (login_nonblank_eq code w Hc). reflexivity. }
  split; [exact E|]. intros Hflag Htok.
  rewrite E. unfold exec. rewrite logout_eq. cbn [snd store].
  destruct w as [[id tok flag] con]. cbn in *. now subst.
Qed.

(** From the initial state, through a login, and back; and from a
    logged-in state, the same as a plain logout. *)
Lemma login_logout_round_trip_witness :
  store (exec (loginWithDeviceCode (js "ABC123-XYZ") ;; logout) initial_world)
    = initial_state /\
  store (exec (loginWithDeviceCode (js "second") ;; logout)
              (exec (loginWithDeviceCode (js "first")) initial_world))
    = store (exec logout (exec (loginWithDeviceCode (js "first")) initial_world)).
Proof.
  split.
  - exact (proj2 (login_logout_round_trip (js "ABC123-XYZ") initial_world)
                 eq_refl eq_refl).
  - exact (proj1 (login_logout_round_trip (js "second")
                    (exec (loginWithDeviceCode (js "first")) initial_world))).
Defined.

Lemma run_actions_cons (a : Action) (actions : list Action) (w : World) :
  run_actions (a :: actions) w = run_actions actions (exec (perform a) w).
Proof. reflexivity. Qed.

(** X4. The store's operations write nothing to the console but the
    warning about a missing code, once per login with a blank code:
    [logout] and a login that goes through log nothing, and no entry
    already there is removed or changed. *)
Theorem store_operations_only_warn (actions : list Action) (w : World) :
  console (run_actions actions w) =
    console w ++ repeat warning_entry (List.length (filter is_blank_login actions)).
Proof.
  revert w. induction actions as [|a actions IH]; intros w.
  - cbn. now rewrite app_nil_r.
  - rewrite run_actions_cons, IH. destruct a as [code|]; cbn [perform filter is_blank_login].
    + unfold exec. destruct (JsString.whitespace_only code) eqn:Hb.
      * rewrite (login_blank_eq code w) by (now apply login_blank_iff).
        cbn [snd console List.length repeat]. now rewrite <- app_assoc.
      * rewrite (login_nonblank_eq code w).
        -- reflexivity.
        -- intros H. apply login_blank_iff in H. congruence.
    + reflexivity.
Qed.

(** ** More on the tournament loader *)

(** The loader, by what [invoke] does. *)
Lemma loadTournamentNames_cases
    (invoke : jsstring -> JS (Promise (list jsstring))) (w : World) :
  loadTournamentNames invoke w =
    match invoke (js "get_tournaments") w with
    | (Normal (Fulfilled names), w1) => (Normal (Fulfilled names), w1)
    | (Normal (Rejected e), w1) | (Throw e, w1) =>
        (Normal (Fulfilled []),
         {| store := store w1; console := console w1 ++ [failure_entry e] |})
    | (Normal Pending, w1) | (Suspended, w1) => (Normal Pending, w1)
    end.
Proof.
  unfold loadTournamentNames, async, try_catch, bind.
  destruct (invoke (js "get_tournaments") w) as [[[names|e|]|e|] w1]; reflexivity.
Qed.

(** X5. The loader writes nothing to the session store: the store is as
    [invoke] left it. To the console it adds nothing, or the one
    [console.error] entry of its [catch] block. And while the backend's
    promise stays pending, so does the loader's, with nothing logged. *)
Theorem loadTournamentNames_frame
    (invoke : jsstring -> JS (Promise (list jsstring))) (w : World) :
  store (exec (loadTournamentNames invoke) w)
    = store (exec (invoke (js "get_tournaments")) w) /\
  (console (exec (loadTournamentNames invoke) w)
     = console (exec (invoke (js "get_tournaments")) w) \/
   exists e,
     console (exec (loadTournamentNames invoke) w)
       = console (exec (invoke (js "get_tournaments")) w) ++ [failure_entry e]) /\
  (forall w1,
     invoke (js "get_tournaments") w = (Normal Pending, w1) ->
     loadTournamentNames invoke w = (Normal Pending, w1)).
Proof.
  unfold exec. rewrite loadTournamentNames_cases.
  destruct (invoke (js "get_tournaments") w) as [[[names|e|]|e|] w1];
    cbn [snd store console]; (split; [reflexivity | split]);
    try (now left); try (right; now exists e);
    intros w2 [= <-]; reflexivity.
Qed.

(** A backend that never answers: the loader's promise stays pending. *)
Lemma loadTournamentNames_frame_witness :
  loadTournamentNames invoke_pending initial_world = (Normal Pending, initial_world).
Proof.
  exact (proj2 (proj2 (loadTournamentNames_frame invoke_pending initial_world))
               initial_world eq_refl).
Defined.

(** ** The Tournaments screen *)

Lemma map_indexed_combine (l : list jsstring) (idx : nat) :
  map_indexed (fun n i => (i, n)) l idx = combine (seq idx (List.length l)) l.
Proof.
  revert idx. induction l as [|n l IH]; intros idx; cbn.
  - reflexivity.
  - now rewrite IH.
Qed.

(** The effect of mounting the screen, by what [invoke] does. *)
Lemma tournaments_effect_cases
    (invoke : jsstring -> JS (Promise (list jsstring))) (w : World) :
  Tournaments.effect invoke (Tournaments.mounted w) =
    match invoke (js "get_tournaments") w with
    | (Normal (Fulfilled data), w1) =>
        (Normal tt,
         {| local := {| Tournaments.names := data; Tournaments.loading := false |};
            app := w1 |})
    | (Normal (Rejected e), w1) | (Throw e, w1) =>
        (Normal tt,
         {| local := {| Tournaments.names := []; Tournaments.loading := false |};
            app := {| store := store w1;
                      console := console w1 ++ [failure_entry e] |} |})
    | (Normal Pending, w1) | (Suspended, w1) =>
        (Normal tt, {| local := Tournaments.initial; app := w1 |})
    end.
Proof.
  unfold Tournaments.effect, Tournaments.run, ui_bind, ui_async, lift.
  cbn [Tournaments.mounted app local].
  rewrite loadTournamentNames_cases.
  destruct (invoke (js "get_tournaments") w) as [[[names|e|]|e|] w1]; reflexivity.
Qed.

(** X6. When the backend answers with a list of names, the mounted
    Tournaments screen ends with [loading] off and [names] that list; it
    then shows "No tournaments found." for the empty list, and otherwise
    one item per name, in the order received, keyed 0, 1, 2, ... *)
Theorem tournaments_shows_loaded_names
    (invoke : jsstring -> JS (Promise (list jsstring)))
    (data : list jsstring) (w w1 : World) :
  invoke (js "get_tournaments") w = (Normal (Fulfilled data), w1) ->
  Tournaments.effect invoke (Tournaments.mounted w) =
    (Normal tt,
     {| local := {| Tournaments.names := data; Tournaments.loading := false |};
        app := w1 |}) /\
  Tournaments.render
    (local (snd (Tournaments.effect invoke (Tournaments.mounted w)))) =
    match data with
    | [] => Tournaments.NoneFound
    | _ :: _ => Tournaments.NameList (combine (seq 0 (List.length data)) data)
    end.
Proof.
  intros H. rewrite tournaments_effect_cases, H. split; [reflexivity|].
  cbn [snd local]. unfold Tournaments.render.
  cbn [Tournaments.loading Tournaments.names].
  destruct data as [|n data]; [reflexivity|].
  cbn [List.length Nat.eqb]. now rewrite map_indexed_combine.
Qed.

(** Two names and a repeat: three items, keyed 0 to 2. *)
Lemma tournaments_shows_loaded_names_witness :
  Tournaments.render
    (local (snd (Tournaments.effect
                   (invoke_answering [js "Winter Cup"; js "Spring Open"; js "Winter Cup"])
                   (Tournaments.mounted initial_world)))) =
  Tournaments.NameList
    [(0, js "Winter Cup"); (1, js "Spring Open"); (2, js "Winter Cup")].
Proof.
  exact (proj2 (tournaments_shows_loaded_names
                  (invoke_answering [js "Winter Cup"; js "Spring Open"; js "Winter Cup"])
                  [js "Winter Cup"; js "Spring Open"; js "Winter Cup"]
                  initial_world initial_world eq_refl)).
Defined.

(** X7. When the backend call throws or its promise is rejected, the
    mounted Tournaments screen ends with [loading] off and no names, and
    shows "No tournaments found.", as it does for an empty answer; the
    failure goes to the console only. *)
Theorem tournaments_failure_shows_none_found
    (invoke : jsstring -> JS (Promise (list jsstring)))
    (e : JsValue) (w w1 : World) :
  invoke (js "get_tournaments") w = (Throw e, w1) \/
  invoke (js "get_tournaments") w = (Normal (Rejected e), w1) ->
  Tournaments.effect invoke (Tournaments.mounted w) =
    (Normal tt,
     {| local := {| Tournaments.names := []; Tournaments.loading := false |};
        app := {| store := store w1;
                  console := console w1 ++ [failure_entry e] |} |}) /\
  Tournaments.render
    (local (snd (Tournaments.effect invoke (Tournaments.mounted w))))
    = Tournaments.NoneFound /\
  Tournaments.render
    (local (snd (Tournaments.effect invoke (Tournaments.mounted w))))
    = Tournaments.render
        (local (snd (Tournaments.effect (invoke_answering [])
                       (Tournaments.mounted w)))).
Proof.
  intros [H|H]; rewrite !tournaments_effect_cases, H; repeat split.
Qed.

(** A rejected call and an empty answer look the same on the screen. *)
Lemma tournaments_failure_shows_none_found_witness :
  Tournaments.render
    (local (snd (Tournaments.effect
                   (invoke_rejecting (VError (js "database is locked")))
                   (Tournaments.mounted initial_world))))
  = Tournaments.NoneFound.
Proof.
  exact (proj1 (proj2 (tournaments_failure_shows_none_found
                         (invoke_rejecting (VError (js "database is locked")))
                         (VError (js "database is locked"))
                         initial_world initial_world (or_intror eq_refl)))).
Defined.

(** X8. Mounting the Tournaments screen never throws, and the promise of
    [run] is never rejected, whatever the backend does. Afterwards the
    screen still shows "Loading" exactly when the backend call has not
    settled; there is no timeout. *)
Theorem tournaments_loading_iff_pending
    (invoke : jsstring -> JS (Promise (list jsstring))) (w : World) :
  fst (Tournaments.effect invoke (Tournaments.mounted w)) = Normal tt /\
  (exists p m,
     Tournaments.run invoke (Tournaments.mounted w) = (Normal p, m) /\
     forall e, p <> Rejected e) /\
  (Tournaments.render
     (local (snd (Tournaments.effect invoke (Tournaments.mounted w))))
     = Tournaments.Loading <->
   (completion (invoke (js "get_tournaments")) w = Normal Pending \/
    completion (invoke (js "get_tournaments")) w = Suspended)).
Proof.
  split; [|split].
  - rewrite tournaments_effect_cases.
    destruct (invoke (js "get_tournaments") w) as [[[names|e|]|e|] w1]; reflexivity.
  - unfold Tournaments.run, ui_bind, ui_async, lift.
    cbn [Tournaments.mounted app local].
    rewrite loadTournamentNames_cases.
    destruct (invoke (js "get_tournaments") w) as [[[names|e|]|e|] w1];
      cbn; eexists; eexists; (split; [reflexivity | discriminate]).
  - rewrite tournaments_effect_cases. unfold completion.
    destruct (invoke (js "get_tournaments") w) as [[[names|e|]|e|] w1];
      cbn [fst snd local]; unfold Tournaments.render;
      cbn [Tournaments.loading Tournaments.names Tournaments.initial].
    + split; [|intros [H|H]; discriminate H].
      destruct (Nat.eqb (List.length names) 0); discriminate.
    + split; [discriminate | intros [H|H]; discriminate H].
    + split; [intros _; now left | reflexivity].
    + split; [discriminate | intros [H|H]; discriminate H].
    + split; [intros _; now right | reflexivity].
Qed.

(** ** The Login and Dashboard screens *)

Lemma handleSubmit_eq (e : Login.FormEvent) (m : Mounted Login.State) :
  Login.handleSubmit e m =
    (Normal {| Login.defaultPrevented := true |},
     {| local := local m;
        app := exec (loginWithDeviceCode (Login.deviceCode (local m))) (app m) |}).
Proof.
  unfold Login.handleSubmit, ui_bind, lift, ui_ret, exec.
  destruct (trim_dec (Login.deviceCode (local m))) as [E|E].
  - rewrite (login_blank_eq _ (app m) E). reflexivity.
  - rewrite (login_nonblank_eq _ (app m) E). reflexivity.
Qed.

Lemma after_submit_eq (m : Mounted Login.State) :
  Login.after Login.Submit m =
    {| local := local m;
       app := exec (loginWithDeviceCode (Login.deviceCode (local m))) (app m) |}.
Proof.
  unfold Login.after, Login.dispatch, ui_bind. rewrite handleSubmit_eq. reflexivity.
Qed.

Lemma after_logout_eq (m : Mounted Login.State) :
  Login.after Login.ClickLogout m =
    {| local := local m; app := exec logout (app m) |}.
Proof. reflexivity. Qed.

Lemma after_change_eq (value : jsstring) (m : Mounted Login.State) :
  Login.after (Login.Change value) m =
    {| local := {| Login.deviceCode := value |}; app := app m |}.
Proof. reflexivity. Qed.

(** Whatever is done on the Login screen is a store operation or none. *)
Lemma session_reachable (m : Mounted Login.State) :
  Login.session m -> reachable (app m).
Proof.
  intros Hm. induction Hm as [w Hw | ev m Hm IH Hev].
  - exact Hw.
  - destruct ev as [value| |].
    + exact IH.
    + rewrite after_submit_eq. cbn [app].
      exact (reachable_step (LoginWithDeviceCode _) (app m) IH).
    + rewrite after_logout_eq. cbn [app].
      exact (reachable_step Logout (app m) IH).
Qed.

(** X9. In every reachable world the Dashboard and the Login screen show
    the same session: both "not logged in" (the Login screen then shows
    its form), or both logged in with the same token, which is
    "mock_access_token_" followed by a non-empty trimmed code, never an
    empty token line; and both show the store id
    "SESSION_STORE_SINGLETON". *)
Theorem screens_show_the_session (w : World) (st : Login.State) :
  reachable w ->
  (Dashboard.render (store w)
     = Dashboard.NotLoggedIn (js "SESSION_STORE_SINGLETON") /\
   Login.render st (store w)
     = Login.Form (js "SESSION_STORE_SINGLETON") (Login.deviceCode st)) \/
  (exists t,
     t <> [] /\ JsString.trim t = t /\
     Dashboard.render (store w)
       = Dashboard.LoggedIn (js "SESSION_STORE_SINGLETON")
           (Some (JsString.concat token_prefix t)) /\
     Login.render st (store w)
       = Login.Panel (js "SESSION_STORE_SINGLETON")
           (Some (JsString.concat token_prefix t))).
Proof.
  intros Hw. destruct (reachable_store_shape w Hw) as [E | (t & Ht & Et & E)];
    rewrite E.
  - left. split; reflexivity.
  - right. exists t. split; [exact Ht|]. split; [exact Et|].
    unfold logged_in_state. rewrite Et. split; reflexivity.
Qed.

(** After a login on a fresh store, both screens show the token. *)
Lemma screens_show_the_session_witness :
  Dashboard.render (store (exec (loginWithDeviceCode (js " ABC123-XYZ")) initial_world))
    = Dashboard.LoggedIn (js "SESSION_STORE_SINGLETON")
        (Some (js "mock_access_token_ABC123-XYZ")) /\
  Login.render Login.initial
      (store (exec (loginWithDeviceCode (js " ABC123-XYZ")) initial_world))
    = Login.Panel (js "SESSION_STORE_SINGLETON")
        (Some (js "mock_access_token_ABC123-XYZ")).
Proof.
  destruct (screens_show_the_session
              (exec (loginWithDeviceCode (js " ABC123-XYZ")) initial_world)
              Login.initial
              (reachable_step (LoginWithDeviceCode (js " ABC123-XYZ")) initial_world
                 reachable_initial))
    as [[H _] | (t & _ & _ & H1 & H2)].
  - discriminate H.
  - split; reflexivity.
Defined.

(** X10. Submitting the Login form always prevents the form's default
    action and keeps the typed text. With a blank text the screen stays
    as it is and one warning is logged; with any other text the screen
    switches to the "Logged in" box, showing the token made of the
    trimmed text. *)
Theorem login_screen_submit (e : Login.FormEvent) (m : Mounted Login.State) :
  fst (Login.handleSubmit e m) = Normal {| Login.defaultPrevented := true |} /\
  local (Login.after Login.Submit m) = local m /\
  (JsString.whitespace_only (Login.deviceCode (local m)) = true ->
   Login.view (Login.after Login.Submit m) = Login.view m /\
   store (app (Login.after Login.Submit m)) = store (app m) /\
   console (app (Login.after Login.Submit m))
     = console (app m) ++ [warning_entry]) /\
  (JsString.whitespace_only (Login.deviceCode (local m)) = false ->
   Login.view (Login.after Login.Submit m)
     = Login.Panel (storeId (store (app m)))
         (Some (JsString.concat token_prefix
                  (JsString.trim (Login.deviceCode (local m))))) /\
   console (app (Login.after Login.Submit m)) = console (app m)).
Proof.
  rewrite handleSubmit_eq, after_submit_eq. cbn [fst local app].
  split; [reflexivity | split; [reflexivity | split]]; intros Hb; unfold exec.
  - rewrite (login_blank_eq _ (app m)) by (now apply login_blank_iff).
    repeat split.
  - rewrite (login_nonblank_eq _ (app m)).
    + split; reflexivity.
    + intros H. apply login_blank_iff in H. congruence.
Qed.

(** A code typed with a space in front: the box shows the trimmed token;
    three spaces: the form stays. *)
Lemma login_screen_submit_witness :
  Login.view
    (Login.after Login.Submit
       (Login.after (Login.Change (js " ABC123-XYZ"))
          {| local := Login.initial; app := initial_world |}))
    = Login.Panel (js "SESSION_STORE_SINGLETON")
        (Some (js "mock_access_token_ABC123-XYZ")) /\
  Login.view
    (Login.after Login.Submit
       (Login.after (Login.Change (js "   "))
          {| local := Login.initial; app := initial_world |}))
    = Login.Form (js "SESSION_STORE_SINGLETON") (js "   ").
Proof.
  split.
  - exact (proj1 (proj2 (proj2 (proj2
             (login_screen_submit {| Login.defaultPrevented := false |}
                (Login.after (Login.Change (js " ABC123-XYZ"))
                   {| local := Login.initial; app := initial_world |}))))
             eq_refl)).
  - exact (proj1 (proj1 (proj2 (proj2
             (login_screen_submit {| Login.defaultPrevented := false |}
                (Login.after (Login.Change (js "   "))
                   {| local := Login.initial; app := initial_world |}))))
             eq_refl)).
Defined.

(** X11. On the Login screen, logging in and out is a round trip: from
    the form with a non-blank text, submitting shows the box with the
    Logout button, and pressing it brings back the form as it was, the
    typed text still in the input. *)
Theorem login_screen_round_trip (m : Mounted Login.State) :
  isLoggedIn (store (app m)) = false ->
  JsString.whitespace_only (Login.deviceCode (local m)) = false ->
  Login.offers (Login.view m) Login.Submit = true /\
  Login.offers (Login.view (Login.after Login.Submit m)) Login.ClickLogout = true /\
  Login.view (Login.after Login.ClickLogout (Login.after Login.Submit m))
    = Login.view m.
Proof.
  intros Hout Hcode.
  assert (Hne : JsString.trim (Login.deviceCode (local m)) <> []).
  { intros H. apply login_blank_iff in H. congruence. }
  rewrite after_logout_eq, after_submit_eq. unfold Login.view, Login.render.
  cbn [local app]. unfold exec.
  rewrite (login_nonblank_eq _ (app m) Hne). cbn [snd store isLoggedIn].
  rewrite Hout. repeat split.
Qed.

(** Type a code, log in, log out: the form is back with the code. *)
Lemma login_screen_round_trip_witness :
  Login.view
    (Login.after Login.ClickLogout
       (Login.after Login.Submit
          {| local := {| Login.deviceCode := js "ABC123-XYZ" |};
             app := initial_world |}))
    = Login.Form (js "SESSION_STORE_SINGLETON") (js "ABC123-XYZ").
Proof.
  exact (proj2 (proj2 (login_screen_round_trip
                         {| local := {| Login.deviceCode := js "ABC123-XYZ" |};
                            app := initial_world |}
                         eq_refl eq_refl))).
Defined.

(** X12. The Login screen never replaces one token by another: while a
    token is held the screen offers the Logout button only, so whatever
    the user does next on the screen leaves no token and the flag off. *)
Theorem login_screen_never_overwrites_token
    (m : Mounted Login.State) (ev : Login.Event) (t : jsstring) :
  Login.session m ->
  Login.offers (Login.view m) ev = true ->
  accessToken (store (app m)) = Some t ->
  ev = Login.ClickLogout /\
  accessToken (store (app (Login.after ev m))) = None /\
  isLoggedIn (store (app (Login.after ev m))) = false.
Proof.
  intros Hm Hev Htok.
  assert (Hin : isLoggedIn (store (app m)) = true).
  { destruct (reachable_store_shape (app m) (session_reachable m Hm))
      as [E | (t' & _ & _ & E)]; rewrite E in *.
    - discriminate Htok.
    - reflexivity. }
  unfold Login.view, Login.render in Hev. rewrite Hin in Hev.
  destruct ev; cbn in Hev; try discriminate Hev.
  repeat split.
Qed.

(** Logged in through the form; the next thing on offer is the logout. *)
Lemma login_screen_never_overwrites_token_witness :
  accessToken
    (store (app (Login.after Login.ClickLogout
                   (Login.after Login.Submit
                      (Login.after (Login.Change (js "ABC123-XYZ"))
                         {| local := Login.initial; app := initial_world |})))))
    = None.
Proof.
  exact (proj1 (proj2
    (login_screen_never_overwrites_token
       (Login.after Login.Submit
          (Login.after (Login.Change (js "ABC123-XYZ"))
             {| local := Login.initial; app := initial_world |}))
       Login.ClickLogout
       (js "mock_access_token_ABC123-XYZ")
       (Login.session_event Login.Submit _
          (Login.session_event (Login.Change (js "ABC123-XYZ")) _
             (Login.session_mount initial_world reachable_initial) eq_refl)
          eq_refl)
       eq_refl eq_refl))).
Defined.

(** ** More on the routes *)

(** X13. In the [App] with the wildcard route, a pathname whose decoded
    form is a slash followed by anything on one line ends at a screen
    after at most one redirect: one of Dashboard, Tournaments and Login
    is shown, and no redirect leads to another redirect. Every other
    pathname, such as one with an escaped line feed, matches no route:
    nothing is shown. *)
Theorem hash_routes_reach_a_screen (p : jsstring) (fuel : nat) :
  (Router.is_pathname (Router.matched_pathname p) = true ->
   exists e,
     Router.settle (S fuel) AppHashRouter.routes p = Some e /\
     (e = DashboardScreen \/ e = TournamentsScreen \/ e = LoginScreen)) /\
  (Router.is_pathname (Router.matched_pathname p) = false ->
   Router.settle (S fuel) AppHashRouter.routes p = None).
Proof.
  split; intros Hp; cbn [Router.settle].
  - rewrite matchRoutes_hash, matchPath_splat, Hp.
    destruct (Router.matchPath (js "/dashboard") (Router.matched_pathname p));
      [exists DashboardScreen; auto|].
    destruct (Router.matchPath (js "/tournaments") (Router.matched_pathname p));
      [exists TournamentsScreen; auto|].
    destruct (Router.matchPath (js "/login") (Router.matched_pathname p));
      [exists LoginScreen; auto|].
    exists DashboardScreen.
    destruct (Router.matchPath (js "/") (Router.matched_pathname p));
      (split; [apply settle_dashboard | auto]).
  - now rewrite (proj2 (matchRoutes_hash_none p) Hp).
Qed.

(** A path two levels deep ends at the Dashboard; an escaped line feed
    ends nowhere. *)
Lemma hash_routes_reach_a_screen_witness :
  Router.is_pathname (Router.matched_pathname (js "/tournaments/2024")) = true /\
  Router.settle 1 AppHashRouter.routes (js "/tournaments/2024") = Some DashboardScreen /\
  Router.settle 1 AppHashRouter.routes (js "/a%0Ab") = None.
Proof.
  split; [reflexivity | split].
  - destruct (proj1 (hash_routes_reach_a_screen (js "/tournaments/2024") 0) eq_refl)
      as (e & H & [-> | [-> | ->]]).
    + exact H.
    + cbv in H. discriminate H.
    + cbv in H. discriminate H.
  - exact (proj2 (hash_routes_reach_a_screen (js "/a%0Ab") 0) eq_refl).
Defined.

(** X14. The two route tables differ by the fallback only. What the
    [App] without a wildcard route shows for a pathname, the other [App]
    shows too; it shows nothing exactly for the pathnames whose decoded
    form matches none of its four routes; and among these, for the ones
    whose decoded form is a slash followed by anything on one line, the
    other [App] redirects to "/dashboard". *)
Theorem browser_routes_lack_only_the_fallback (p : jsstring) :
  (forall e,
     Router.matchRoutes AppBrowserRouter.routes p = Some e ->
     Router.matchRoutes AppHashRouter.routes p = Some e) /\
  (Router.matchRoutes AppBrowserRouter.routes p = None <->
   Router.matchPath (js "/") (Router.matched_pathname p) = false /\
   Router.matchPath (js "/login") (Router.matched_pathname p) = false /\
   Router.matchPath (js "/dashboard") (Router.matched_pathname p) = false /\
   Router.matchPath (js "/tournaments") (Router.matched_pathname p) = false) /\
  (Router.is_pathname (Router.matched_pathname p) = true ->
   Router.matchRoutes AppBrowserRouter.routes p = None ->
   Router.matchRoutes AppHashRouter.routes p
     = Some (Navigate (js "/dashboard") true)).
Proof.
  rewrite matchRoutes_browser, matchRoutes_hash, matchPath_splat.
  generalize (Router.matched_pathname p) as q. intros q.
  destruct (Router.matchPath (js "/login") q) eqn:Hl.
  - rewrite (login_not_dashboard q Hl), (login_not_tournaments q Hl).
    split; [auto | split].
    + split; [discriminate | intros (_ & H & _); discriminate H].
    + discriminate.
  - destruct (Router.matchPath (js "/dashboard") q) eqn:Hd.
    + split; [auto | split].
      * split; [discriminate | intros (_ & _ & H & _); discriminate H].
      * discriminate.
    + destruct (Router.matchPath (js "/tournaments") q) eqn:Ht.
      * split; [auto | split].
        -- split; [discriminate | intros (_ & _ & _ & H); discriminate H].
        -- discriminate.
      * destruct (Router.matchPath (js "/") q) eqn:Hr.
        -- split; [auto | split].
           ++ split; [discriminate | intros (H & _); discriminate H].
           ++ discriminate.
        -- split; [discriminate | split].
           ++ split; auto.
           ++ intros -> _. reflexivity.
Qed.

(** An unknown path: nothing in one table, the redirect in the other. *)
Lemma browser_routes_lack_only_the_fallback_witness :
  Router.matchRoutes AppBrowserRouter.routes (js "/standings") = None /\
  Router.matchRoutes AppHashRouter.routes (js "/standings")
    = Some (Navigate (js "/dashboard") true).
Proof.
  split.
  - exact (proj2 (proj1 (proj2 (browser_routes_lack_only_the_fallback
                                  (js "/standings"))))
                 (conj eq_refl (conj eq_refl (conj eq_refl eq_refl)))).
  - exact (proj2 (proj2 (browser_routes_lack_only_the_fallback (js "/standings")))
                 eq_refl eq_refl).
Defined.

(** X15. Every link of the navigation bar leads, in both route tables
    and without a redirect, to the screen whose heading is the link's
    label. *)
Theorem navbar_links_reach_their_screens (l : NavBar.Link) :
  In l NavBar.links ->
  exists e,
    Router.matchRoutes AppHashRouter.routes (NavBar.to l) = Some e /\
    Router.matchRoutes AppBrowserRouter.routes (NavBar.to l) = Some e /\
    heading e = Some (NavBar.label l).
Proof.
  intros [<- | [<- | [<- | []]]].
  - exists DashboardScreen. repeat split.
  - exists TournamentsScreen. repeat split.
  - exists LoginScreen. repeat split.
Qed.

(** The "Tournaments" link. *)
Lemma navbar_links_reach_their_screens_witness :
  exists e,
    Router.matchRoutes AppHashRouter.routes (js "/tournaments") = Some e /\
    Router.matchRoutes AppBrowserRouter.routes (js "/tournaments") = Some e /\
    heading e = Some (js "Tournaments").
Proof.
  exact (navbar_links_reach_their_screens
           {| NavBar.to := js "/tournaments"; NavBar.label := js "Tournaments" |}
           (or_intror (or_introl eq_refl))).
Defined.
